(** * Fixture harvester: scripts/harvest_python_fixtures.py

    A shallow embedding of the harvesting script and the properties its
    specification states about it.  The script selects scenarios from a
    static registry, imports each scenario module from an external SDK
    checkout, and calls its entry point with the path of the fixture to
    write.

    Layout: strings and paths ([pathlib] as far as the script uses it), the
    file system and the interpreter state, the computations of the script in
    a small exception-and-trace monad, then the script itself, function by
    function, and finally the theorems. *)

From Stdlib Require Import String Ascii List Bool Lia.
From stdpp Require Import base option list gmap strings fin_maps.
Import ListNotations.

Local Open Scope stdpp_scope.
Local Open Scope list_scope.

(** ** Strings *)

(** [sep.join(l)] *)
Definition join (sep : string) (l : list string) : string := String.concat sep l.

(** [s.split("/")]: always at least one segment. *)
Fixpoint split_slash (s : string) : list string :=
  match s with
  | EmptyString => [EmptyString]
  | String c s' =>
      if Ascii.eqb c "/" then EmptyString :: split_slash s'
      else match split_slash s' with
           | [] => [String c EmptyString]
           | seg :: segs => String c seg :: segs
           end
  end.

(** [c in s] for a character. *)
Fixpoint has_char (c : ascii) (s : string) : bool :=
  match s with
  | EmptyString => false
  | String d s' => Ascii.eqb d c || has_char c s'
  end.

(** [needle in hay] for strings. *)
Fixpoint contains (needle hay : string) : bool :=
  String.prefix needle hay ||
  match hay with
  | EmptyString => false
  | String _ hay' => contains needle hay'
  end.

(** ** Paths: [pathlib.PurePosixPath]

    A path is its anchor and its components.  Parsing drops empty and ["."]
    components and keeps [".."]; the implementation-defined root of exactly
    two slashes is not told apart from the root. *)

Record Path := MkPath { absolute : bool; parts : list string }.

Global Instance Path_eq_dec : EqDecision Path.
Proof. solve_decision. Defined.

Definition keep_part (seg : string) : bool :=
  negb (String.eqb seg "") && negb (String.eqb seg ".").

(** [Path(s)] *)
Definition Path_of (s : string) : Path :=
  {| absolute := String.prefix "/" s;
     parts := List.filter keep_part (split_slash s) |}.

(** [str(p)] *)
Definition str (p : Path) : string :=
  match parts p with
  | [] => if absolute p then "/" else "."
  | _ :: _ => (if absolute p then "/" else "") +:+ join "/" (parts p)
  end.

(** [p / s] *)
Definition joinpath (p : Path) (s : string) : Path :=
  let q := Path_of s in
  if absolute q then q
  else {| absolute := absolute p; parts := parts p ++ parts q |}.

(** [p.parent]: the parent of a path without components is itself. *)
Definition parent (p : Path) : Path :=
  {| absolute := absolute p; parts := removelast (parts p) |}.

(** ** The registry *)

Record Scenario := MkScenario {
  name : string;
  module : string;
  function : string;
  description : string
}.

Global Instance Scenario_eq_dec : EqDecision Scenario.
Proof. solve_decision. Defined.

(** The dataclass defaults: [function = "record"], [description = ""]. *)
Definition scenario (n m d : string) : Scenario :=
  {| name := n; module := m; function := "record"; description := d |}.

Definition thread_basic : Scenario :=
  scenario "thread_basic" "harvest_scenarios.thread_basic"
    "Simple thread start + single turn execution.".

Definition thread_with_tool_retry : Scenario :=
  scenario "thread_with_tool_retry" "harvest_scenarios.thread_with_tool_retry"
    "Thread that exercises tool invocation and auto-run retry loop.".

Definition structured_output_success : Scenario :=
  scenario "structured_output_success" "harvest_scenarios.structured_output_success"
    "Structured output with valid JSON payload.".

Definition sandbox_approval_denied : Scenario :=
  scenario "sandbox_approval_denied" "harvest_scenarios.sandbox_approval_denied"
    "Approval workflow where a command is denied.".

Definition SCENARIOS : list Scenario :=
  [ thread_basic; thread_with_tool_retry; structured_output_success;
    sandbox_approval_denied ].

(** ** Exceptions *)

Inductive exn :=
| SystemExit (msg : string)
| KeyError (key : string)
| FileExistsError (p : Path)
| FileNotFoundError (p : Path)
| NotADirectoryError (p : Path)
| TypeError (msg : string)
| Raised (what : string).   (* whatever external code raises *)

Global Instance exn_eq_dec : EqDecision exn.
Proof. solve_decision. Defined.

(** ** Selection *)

(** [{s.name: s for s in registry}]: a later entry replaces an earlier one
    of the same name. *)
Definition by_name (registry : list Scenario) : gmap string Scenario :=
  foldl (λ d s, <[name s := s]> d) ∅ registry.

(** [[lookup[name] for name in requested]] *)
Fixpoint lookup_all (lookup : gmap string Scenario) (requested : list string)
  : exn + list Scenario :=
  match requested with
  | [] => inr []
  | n :: rest =>
      match lookup !! n with
      | None => inl (KeyError n)
      | Some s =>
          match lookup_all lookup rest with
          | inl e => inl e
          | inr ss => inr (s :: ss)
          end
      end
  end.

Definition select_scenarios (requested : list string) : exn + list Scenario :=
  match requested with
  | [] => inr SCENARIOS
  | _ :: _ =>
      let lookup := by_name SCENARIOS in
      let unknown := filter (λ n, lookup !! n = None) requested in
      match unknown with
      | _ :: _ => inl (SystemExit ("Unknown scenario(s): " +:+ join ", " unknown))
      | [] => lookup_all lookup requested
      end
  end.

(** ** The file system and the interpreter state

    The file system maps absolute, fully walked component lists to nodes; the
    root is always a directory.  Symbolic links and permissions are not part
    of the model.  [sys_path] is [sys.path].  The process environment is not
    part of the world: the script reads it once, in [parse_args], and what
    external code makes of it is not modelled. *)

Inductive Node := File | Dir.

Global Instance Node_eq_dec : EqDecision Node.
Proof. solve_decision. Defined.

Record World := MkWorld {
  fs : gmap (list string) Node;
  cwd : list string;
  sys_path : list string
}.

Inductive errno := ENOENT | ENOTDIR | EEXIST.

Definition os_error (e : errno) (p : Path) : exn :=
  match e with
  | ENOENT => FileNotFoundError p
  | ENOTDIR => NotADirectoryError p
  | EEXIST => FileExistsError p
  end.

Definition node_at (tree : gmap (list string) Node) (k : list string) : option Node :=
  match k with
  | [] => Some Dir
  | _ :: _ => tree !! k
  end.

(** One component of a path walk: [".."] goes up (the root is its own
    parent), any other component goes down. *)
Definition step (cur : list string) (c : string) : list string :=
  if String.eqb c ".." then removelast cur else cur ++ [c].

(** The kernel's walk along the components [cs] from [cur]: every component
    is taken from a directory. *)
Fixpoint walk (tree : gmap (list string) Node) (cur cs : list string)
  : errno + list string :=
  match cs with
  | [] => inr cur
  | c :: cs' =>
      match node_at tree cur with
      | None => inl ENOENT
      | Some File => inl ENOTDIR
      | Some Dir => walk tree (step cur c) cs'
      end
  end.

Definition abs_parts (w : World) (p : Path) : list string :=
  if absolute p then parts p else cwd w ++ parts p.

(** [os.stat(p)] *)
Definition os_stat (p : Path) (w : World) : errno + Node :=
  match walk (fs w) [] (abs_parts w p) with
  | inl e => inl e
  | inr k =>
      match node_at (fs w) k with
      | Some n => inr n
      | None => inl ENOENT
      end
  end.

(** [p.exists()] and [p.is_dir()] *)
Definition path_exists (p : Path) (w : World) : bool :=
  match os_stat p w with inr _ => true | inl _ => false end.

Definition is_dir (p : Path) (w : World) : bool :=
  match os_stat p w with inr Dir => true | _ => false end.

Definition add_dir (k : list string) (w : World) : World :=
  {| fs := <[k := Dir]> (fs w); cwd := cwd w; sys_path := sys_path w |}.

(** [os.mkdir(p)] *)
Definition os_mkdir (p : Path) (w : World) : (errno + unit) * World :=
  match walk (fs w) [] (abs_parts w p) with
  | inl e => (inl e, w)
  | inr k =>
      match node_at (fs w) k with
      | Some _ => (inl EEXIST, w)
      | None => (inr tt, add_dir k w)
      end
  end.

(** [p.mkdir(parents=False, exist_ok=True)] *)
Definition mkdir_leaf (p : Path) (w : World) : (exn + unit) * World :=
  match os_mkdir p w with
  | (inr _, w') => (inr tt, w')
  | (inl ENOENT, _) => (inl (FileNotFoundError p), w)
  | (inl e, _) => if is_dir p w then (inr tt, w) else (inl (os_error e p), w)
  end.

(** [p.mkdir(parents=True, exist_ok=True)] for the path with anchor [anchor]
    and components [rev rparts]: on [FileNotFoundError] the parent is made
    first, then the path itself without [parents]. *)
Fixpoint mkdir_parents (anchor : bool) (rparts : list string) (w : World)
  : (exn + unit) * World :=
  let p := MkPath anchor (rev rparts) in
  match os_mkdir p w with
  | (inr _, w') => (inr tt, w')
  | (inl ENOENT, _) =>
      match rparts with
      | [] => (inl (FileNotFoundError p), w)
      | _ :: rparents =>
          match mkdir_parents anchor rparents w with
          | (inl e, w') => (inl e, w')
          | (inr _, w') => mkdir_leaf p w'
          end
      end
  | (inl e, _) => if is_dir p w then (inr tt, w) else (inl (os_error e p), w)
  end.

Definition mkdir (p : Path) (w : World) : (exn + unit) * World :=
  mkdir_parents (absolute p) (rev (parts p)) w.

(** [p.resolve()]: without symbolic links, the absolute path with [".."]
    taken lexically. *)
Definition resolve (p : Path) (w : World) : Path :=
  {| absolute := true; parts := foldl step [] (abs_parts w p) |}.

(** ** External code

    A scenario entry point takes keyword arguments and does what it likes to
    the world.  A module is its attribute dictionary.  The importer stands
    for [importlib.import_module]. *)

Definition Handler := gmap string Path → World → (exn + unit) * World.

Inductive PyObj :=
| PyNone
| PyCallable (h : Handler)
| PyOther (repr : string).

Definition PyModule := gmap string PyObj.

Definition Importer := string → World → (exn + PyModule) * World.

(** [h is None] *)
Definition is_None (h : PyObj) : bool :=
  match h with PyNone => true | _ => false end.

(** [getattr(m, attr, None)] *)
Definition getattr (m : PyModule) (attr : string) : PyObj :=
  default PyNone (m !! attr).

(** ** Computations

    A computation runs in a world and gives a value or an exception, the
    world it leaves, and the trace of what the script itself did. *)

Inductive Event :=
| EvSysPath (entry : string)
| EvImport (module_name : string)
| EvMkdir (p : Path)
| EvPrint (line : string)
| EvCall (module_name attr : string) (kwargs : gmap string Path).

Global Instance Event_eq_dec : EqDecision Event.
Proof. solve_decision. Defined.

Definition M (A : Type) : Type := World → (exn + A) * World * list Event.

Definition ret {A} (a : A) : M A := λ w, (inr a, w, []).

Definition raise {A} (e : exn) : M A := λ w, (inl e, w, []).

Definition bind {A B} (c : M A) (k : A → M B) : M B :=
  λ w,
    match c w with
    | (inl e, w1, t1) => (inl e, w1, t1)
    | (inr a, w1, t1) =>
        match k a w1 with
        | (r, w2, t2) => (r, w2, t1 ++ t2)
        end
    end.

Notation "x <- c ;; k" := (bind c (λ x, k))
  (at level 100, c at next level, right associativity).
Notation "c ;;; k" := (bind c (λ _, k))
  (at level 100, right associativity).

(** The script performs [act] on the world and the trace records [ev]. *)
Definition perform {A} (ev : Event) (act : World → (exn + A) * World) : M A :=
  λ w, match act w with (r, w') => (r, w', [ev]) end.

(** A read of the world. *)
Definition ask {A} (f : World → A) : M A := λ w, (inr (f w), w, []).

(** [for x in l: body(x)] *)
Fixpoint for_each {A} (l : list A) (body : A → M unit) : M unit :=
  match l with
  | [] => ret tt
  | x :: l' => body x ;;; for_each l' body
  end.

Definition print (line : string) : M unit :=
  perform (EvPrint line) (λ w, (inr tt, w)).

Definition import_module (imp : Importer) (m : string) : M PyModule :=
  perform (EvImport m) (imp m).

(** What calling the object [h] with keyword arguments does: only a
    callable can be called. *)
Definition apply_obj (h : PyObj) (kwargs : gmap string Path) (w : World)
  : (exn + unit) * World :=
  match h with
  | PyCallable f => f kwargs w
  | PyNone => (inl (TypeError "'NoneType' object is not callable"), w)
  | PyOther _ => (inl (TypeError "object is not callable"), w)
  end.

(** The call of the entry point of [scenario], as a step of the script. *)
Definition call (scenario : Scenario) (h : PyObj) (kwargs : gmap string Path) : M unit :=
  perform (EvCall (module scenario) (function scenario) kwargs) (apply_obj h kwargs).

Definition push_sys_path (entry : string) (w : World) : World :=
  {| fs := fs w; cwd := cwd w; sys_path := entry :: sys_path w |}.

(** [sys.path.insert(0, entry)] *)
Definition sys_path_insert0 (entry : string) : M unit :=
  perform (EvSysPath entry) (λ w, (inr tt, push_sys_path entry w)).

(** [p.mkdir(parents=True, exist_ok=True)] as a step of the script. *)
Definition mkdir_p (p : Path) : M unit := perform (EvMkdir p) (mkdir p).

(** ** Configuration *)

(** The command line as [argparse] hands it over: the value of each option
    that was given, and every [--scenario] in order. *)
Record Argv := MkArgv {
  opt_python_sdk : option string;
  opt_output : option string;
  opt_codex_path : option string;
  opt_scenario : list string
}.

Record Namespace := MkNamespace {
  python_sdk : option Path;
  output : Path;
  codex_path : option Path;
  scenarios : list string
}.

(** [environ] is [os.environ.get("CODEX_PYTHON_SDK_PATH")]; a string default
    goes through [type=Path] like a value given on the command line. *)
Definition parse_args (environ : option string) (argv : Argv) : Namespace :=
  {| python_sdk :=
       match opt_python_sdk argv with
       | Some s => Some (Path_of s)
       | None => Path_of <$> environ
       end;
     output :=
       match opt_output argv with
       | Some s => Path_of s
       | None => Path_of "integration/fixtures/python"
       end;
     codex_path := Path_of <$> opt_codex_path argv;
     scenarios := opt_scenario argv |}.

(** ** The script *)

Definition sdk_required_msg : string :=
  "Path to the Python SDK is required. Pass --python-sdk or set CODEX_PYTHON_SDK_PATH.".

Definition sdk_missing_msg (p : Path) : string :=
  "Python SDK path does not exist: " +:+ str p.

(** A [Path] is always true; [None] is false. *)
Definition ensure_python_path (python_sdk : option Path) : M unit :=
  match python_sdk with
  | None => raise (SystemExit sdk_required_msg)
  | Some p =>
      found <- ask (path_exists p) ;;
      if negb found then raise (SystemExit (sdk_missing_msg p))
      else
        resolved <- ask (resolve p) ;;
        sys_path_insert0 (str resolved)
  end.

Definition entry_point_msg (scenario : Scenario) : string :=
  "Scenario " +:+ name scenario +:+ " expected function " +:+
  function scenario +:+ " in module " +:+ module scenario.

Definition running_msg (scenario : Scenario) (output_path : Path) : string :=
  "[harvest] running " +:+ name scenario +:+ " -> " +:+ str output_path.

(** [kwargs = {}], then [kwargs["codex_path"] = codex_path] when
    [codex_path] is true; a [Path] is always true. *)
Definition override_kwargs (codex_path : option Path) : gmap string Path :=
  match codex_path with
  | Some c => <["codex_path" := c]> ∅
  | None => ∅
  end.

Definition run_scenario (imp : Importer) (scenario : Scenario)
    (output_dir : Path) (codex_path : option Path) : M unit :=
  m <- import_module imp (module scenario) ;;
  let handler := getattr m (function scenario) in
  if is_None handler then raise (SystemExit (entry_point_msg scenario))
  else
    mkdir_p output_dir ;;;
    let output_path := joinpath output_dir (name scenario +:+ ".jsonl") in
    mkdir_p (parent output_path) ;;;
    let kwargs := override_kwargs codex_path in
    print (running_msg scenario output_path) ;;;
    call scenario handler (<["output_path" := output_path]> kwargs).

Definition completed_msg : string := "[harvest] completed".

Definition main (imp : Importer) (environ : option string) (argv : Argv) : M unit :=
  let args := parse_args environ argv in
  ensure_python_path (python_sdk args) ;;;
  output_dir <- ask (resolve (output args)) ;;
  match select_scenarios (scenarios args) with
  | inl e => raise e
  | inr selected =>
      for_each selected (λ scenario, run_scenario imp scenario output_dir (codex_path args)) ;;;
      print completed_msg
  end.

(** ** Reading a run

    [ran body l w w' t]: the loop body ran on every element of [l] in turn
    without raising, from world [w] to [w'], leaving the trace [t]. *)

Inductive ran {A} (body : A → M unit) : list A → World → World → list Event → Prop :=
| ran_nil w : ran body [] w w []
| ran_cons x l w w1 w2 t1 t2 :
    body x w = (inr tt, w1, t1) →
    ran body l w1 w2 t2 →
    ran body (x :: l) w w2 (t1 ++ t2).

(** Components without [".."], so that a walk along them only goes down. *)
Definition plain (cs : list string) : Prop := Forall (λ c, c ≠ "..") cs.

(** No regular file stands where a directory of the path [cs] belongs. *)
Definition unobstructed (tree : gmap (list string) Node) (cs : list string) : Prop :=
  ∀ k, k `prefix_of` cs → node_at tree k ≠ Some File.

(** One world extends another: the same working directory and search path,
    every node kept, and only directories added. *)
Definition extends (w w' : World) : Prop :=
  cwd w' = cwd w ∧ sys_path w' = sys_path w ∧ fs w ⊆ fs w' ∧
  ∀ k n, fs w' !! k = Some n → fs w !! k = Some n ∨ n = Dir.

(** [unobstructed], decided prefix by prefix. *)
Definition clear_way (tree : gmap (list string) Node) (cs : list string) : bool :=
  forallb (λ i, negb (bool_decide (node_at tree (take i cs) = Some File)))
          (seq 0 (S (length cs))).

(** The trace restricted to what the claims speak of. *)
Definition is_call (ev : Event) : bool :=
  match ev with EvCall _ _ _ => true | _ => false end.

Definition is_mkdir (ev : Event) : bool :=
  match ev with EvMkdir _ => true | _ => false end.

Definition imports (t : list Event) : list string :=
  omap (λ ev, match ev with EvImport m => Some m | _ => None end) t.

Definition calls (t : list Event) : list Event := List.filter is_call t.

(** The paths handed to the entry points, in the order of the calls. *)
Definition call_targets (t : list Event) : list Path :=
  omap (λ ev, match ev with
              | EvCall _ _ kwargs => kwargs !! "output_path"
              | _ => None
              end) t.

(** [w'] is [w] with directories added, and only at prefixes of the
    components [cs]: at a path and the directories above it. *)
Definition grows_within (cs : list string) (w w' : World) : Prop :=
  cwd w' = cwd w ∧ sys_path w' = sys_path w ∧
  ∀ k, fs w' !! k ≠ fs w !! k →
       k `prefix_of` cs ∧ fs w !! k = None ∧ fs w' !! k = Some Dir.

(** What the script may do once [sys.path] is set, for output directory [d]
    and override [c]: import a registered module, call [mkdir] on [d], print
    the progress line of a registered scenario or the completion line, and
    call the entry point of a registered scenario on its file in [d]. *)
Definition event_within (d : Path) (c : option Path) (ev : Event) : Prop :=
  match ev with
  | EvSysPath _ => False
  | EvImport m => m ∈ module <$> SCENARIOS
  | EvMkdir p => p = d
  | EvPrint line =>
      line = completed_msg ∨
      ∃ s, s ∈ SCENARIOS ∧ line = running_msg s (joinpath d (name s +:+ ".jsonl"))
  | EvCall m f kwargs =>
      ∃ s, s ∈ SCENARIOS ∧ m = module s ∧ f = function s ∧
           kwargs = <["output_path" := joinpath d (name s +:+ ".jsonl")]>
                      (override_kwargs c)
  end.

(** ** A small concrete environment for examples *)

Definition demo_world : World :=
  {| fs := <[ ["sdk"] := Dir ]> (<[ ["work"] := Dir ]> ∅);
     cwd := ["work"];
     sys_path := ["/usr/lib/python3"] |}.

(** A handler that writes the file it is asked for. *)
Definition demo_record : Handler :=
  λ kwargs w,
    match kwargs !! "output_path" with
    | Some p =>
        (inr tt, {| fs := <[ abs_parts w p := File ]> (fs w);
                    cwd := cwd w; sys_path := sys_path w |})
    | None => (inl (TypeError "missing output_path"), w)
    end.

(** [demo_world] once the SDK at [/sdk] is on [sys.path]. *)
Definition ready_world : World := push_sys_path "/sdk" demo_world.

Definition demo_out : Path := Path_of "/work/out".

(** Modules are found once the SDK is on [sys.path]; one of them has no
    entry point. *)
Definition demo_importer : Importer :=
  λ m w,
    if bool_decide ("/sdk" ∈ sys_path w) then
      if String.eqb m "harvest_scenarios.structured_output_success"
      then (inr (∅ : PyModule), w)
      else (inr (<["record" := PyCallable demo_record]> (∅ : PyModule)), w)
    else (inl (Raised ("ModuleNotFoundError: " +:+ m)), w).

(** Every module has its entry point. *)
Definition full_importer : Importer :=
  λ m w,
    if bool_decide ("/sdk" ∈ sys_path w)
    then (inr (<["record" := PyCallable demo_record]> (∅ : PyModule)), w)
    else (inl (Raised ("ModuleNotFoundError: " +:+ m)), w).

Definition demo_argv : Argv :=
  {| opt_python_sdk := None; opt_output := Some "out"; opt_codex_path := None;
     opt_scenario := ["thread_basic"; "structured_output_success";
                      "sandbox_approval_denied"] |}.

(** * Properties *)

(** ** The model at work *)

Example select_ex1 :
  select_scenarios ["sandbox_approval_denied"; "thread_basic"; "sandbox_approval_denied"]
  = inr [sandbox_approval_denied; thread_basic; sandbox_approval_denied].
Proof. vm_compute. reflexivity. Qed.

Example select_ex2 :
  select_scenarios ["nope"; "thread_basic"; "nada"]
  = inl (SystemExit "Unknown scenario(s): nope, nada").
Proof. vm_compute. reflexivity. Qed.

Example path_ex1 : str (joinpath (Path_of "/tmp//out/./x/") "thread_basic.jsonl") = "/tmp/out/x/thread_basic.jsonl".
Proof. vm_compute. reflexivity. Qed.

Example main_ex1 :
  let '(r, w, t) := main demo_importer (Some "/sdk")
                      (MkArgv None (Some "out") None ["thread_basic"]) demo_world in
  r = inr tt ∧
  t = [EvSysPath "/sdk";
       EvImport "harvest_scenarios.thread_basic";
       EvMkdir (Path_of "/work/out");
       EvMkdir (Path_of "/work/out");
       EvPrint "[harvest] running thread_basic -> /work/out/thread_basic.jsonl";
       EvCall "harvest_scenarios.thread_basic" "record"
         (<["output_path" := Path_of "/work/out/thread_basic.jsonl"]> ∅);
       EvPrint "[harvest] completed"] ∧
  fs w !! ["work"; "out"] = Some Dir ∧
  fs w !! ["work"; "out"; "thread_basic.jsonl"] = Some File.
Proof. vm_compute. repeat split; reflexivity. Qed.

(** The empty request runs the four scenarios in registration order, each
    on a file of its own. *)
Example main_ex2 :
  let '(r, w, t) := main full_importer (Some "/sdk")
                      (MkArgv None (Some "/out") None []) demo_world in
  r = inr tt ∧
  imports t = module <$> SCENARIOS ∧
  omap (λ ev, match ev with EvCall _ _ kw => str <$> kw !! "output_path" | _ => None end) t
    = ["/out/thread_basic.jsonl"; "/out/thread_with_tool_retry.jsonl";
       "/out/structured_output_success.jsonl"; "/out/sandbox_approval_denied.jsonl"] ∧
  last t = Some (EvPrint "[harvest] completed").
Proof. vm_compute. repeat split; reflexivity. Qed.

(** An unknown name stops the script before any scenario. *)
Example main_ex3 :
  main full_importer (Some "/sdk") (MkArgv None None None ["nope"]) demo_world
  = (inl (SystemExit "Unknown scenario(s): nope"), ready_world, [EvSysPath "/sdk"]).
Proof. vm_compute. reflexivity. Qed.

(** Neither flag nor environment variable: nothing is done at all. *)
Example main_ex4 :
  main full_importer None (MkArgv None None None []) demo_world
  = (inl (SystemExit sdk_required_msg), demo_world, []).
Proof. reflexivity. Qed.

(** Missing parents are made on the way, also below the working directory. *)
Example mkdir_ex1 :
  let '(r, w) := mkdir (Path_of "a/b/c") demo_world in
  r = inr tt ∧
  fs w = <[ ["work"; "a"; "b"; "c"] := Dir ]> (<[ ["work"; "a"; "b"] := Dir ]>
           (<[ ["work"; "a"] := Dir ]> (fs demo_world))).
Proof. vm_compute. split; reflexivity. Qed.

(** The test of the script is [is None]: an entry point that is there but
    is no callable passes it, and the call is what raises. *)
Example not_callable_ex :
  run_scenario (λ _ w, (inr (<["record" := PyOther "42"]> (∅ : PyModule)), w))
    thread_basic demo_out None ready_world
  = (inl (TypeError "object is not callable"),
     add_dir ["work"; "out"] ready_world,
     [EvImport "harvest_scenarios.thread_basic"; EvMkdir demo_out; EvMkdir demo_out;
      EvPrint "[harvest] running thread_basic -> /work/out/thread_basic.jsonl";
      EvCall "harvest_scenarios.thread_basic" "record"
        (<["output_path" := Path_of "/work/out/thread_basic.jsonl"]> ∅)]).
Proof. vm_compute. reflexivity. Qed.

(** ** Strings *)

Lemma append_cons x (a b : string) : String x a +:+ b = String x (a +:+ b).
Proof. reflexivity. Qed.

Lemma append_assoc (a b c : string) : (a +:+ b) +:+ c = a +:+ (b +:+ c).
Proof. induction a as [|x a IH]; [reflexivity|]. by rewrite !append_cons, IH. Qed.

Lemma join_cons2 sep x y (l : list string) :
  join sep (x :: y :: l) = x +:+ sep +:+ join sep (y :: l).
Proof. reflexivity. Qed.

Lemma join_snoc sep (l : list string) x :
  l ≠ [] → join sep (l ++ [x]) = join sep l +:+ sep +:+ x.
Proof.
  induction l as [|y l IH]; [done|]. intros _. destruct l as [|z l]; [reflexivity|].
  change ((y :: z :: l) ++ [x]) with (y :: z :: (l ++ [x])).
  rewrite !join_cons2. change (z :: l ++ [x]) with ((z :: l) ++ [x]).
  rewrite IH by done. by rewrite !append_assoc.
Qed.

Lemma prefix_refl (n : string) : String.prefix n n = true.
Proof.
  induction n as [|x n IH]; simpl; [done|].
  destruct (ascii_dec x x); [exact IH | congruence].
Qed.

Lemma prefix_append_l (n hay post : string) :
  String.prefix n hay = true → String.prefix n (hay +:+ post) = true.
Proof.
  revert hay. induction n as [|x n IH]; intros hay H.
  - by destruct (hay +:+ post).
  - destruct hay as [|h hay]; simpl in *; [discriminate|].
    destruct (ascii_dec x h); [by apply IH | discriminate].
Qed.

Lemma contains_cons (n : string) (x : ascii) (hay : string) :
  contains n (String x hay) = String.prefix n (String x hay) || contains n hay.
Proof. reflexivity. Qed.

Lemma contains_prefix (n hay : string) : String.prefix n hay = true → contains n hay = true.
Proof.
  intros H. destruct hay.
  - change (contains n "") with (String.prefix n "" || false). by rewrite H.
  - by rewrite contains_cons, H.
Qed.

Lemma contains_self (n : string) : contains n n = true.
Proof. apply contains_prefix, prefix_refl. Qed.

Lemma contains_append_l (n hay post : string) :
  contains n hay = true → contains n (hay +:+ post) = true.
Proof.
  induction hay as [|x hay IH].
  - destruct n; [intros _; by destruct post | discriminate].
  - rewrite contains_cons. intros [H|H]%orb_true_iff.
    + apply contains_prefix, prefix_append_l, H.
    + change (String x hay +:+ post) with (String x (hay +:+ post)).
      rewrite contains_cons, (IH H). apply orb_true_r.
Qed.

Lemma contains_append_skip (pre n hay : string) :
  contains n hay = true → contains n (pre +:+ hay) = true.
Proof.
  intros H. induction pre as [|x pre IH]; [exact H|].
  change (String x pre +:+ hay) with (String x (pre +:+ hay)).
  rewrite contains_cons, IH. apply orb_true_r.
Qed.

Lemma contains_append (pre n post : string) : contains n (pre +:+ n +:+ post) = true.
Proof. apply contains_append_skip, contains_append_l, contains_self. Qed.

(** Every element of a joined list occurs in the result. *)
Lemma contains_join (sep n : string) (l : list string) :
  n ∈ l → contains n (join sep l) = true.
Proof.
  induction l as [|x l IH]; intros Hin; [by apply elem_of_nil in Hin|].
  unfold join in *. apply elem_of_cons in Hin as [->|Hin].
  - destruct l as [|y l]; simpl; [apply contains_self|].
    apply contains_append_l, contains_self.
  - destruct l as [|y l]; [by apply elem_of_nil in Hin|].
    change (String.concat sep (x :: y :: l))
      with (x +:+ sep +:+ String.concat sep (y :: l)).
    apply contains_append_skip, contains_append_skip, IH, Hin.
Qed.

(** ** The registry and the lookup table *)

Lemma SCENARIOS_length : length SCENARIOS = 4.
Proof. reflexivity. Qed.

Lemma SCENARIOS_names_NoDup : NoDup (name <$> SCENARIOS).
Proof. by apply (bool_decide_unpack (NoDup (name <$> SCENARIOS))); vm_compute. Qed.

Section ByName.

Let ins (d : gmap string Scenario) (s : Scenario) := <[name s := s]> d.

Lemma foldl_ins_None (reg : list Scenario) (d : gmap string Scenario) (n : string) :
  foldl ins d reg !! n = None ↔ d !! n = None ∧ n ∉ name <$> reg.
Proof.
  revert d. induction reg as [|s reg IH]; intros d; simpl.
  - split; [intros H; split; [done | apply not_elem_of_nil] | tauto].
  - rewrite IH. unfold ins. rewrite not_elem_of_cons.
    destruct (decide (name s = n)) as [->|Hne].
    + rewrite lookup_insert_eq. split; [by intros [? _] | by intros [_ [? _]]].
    + rewrite lookup_insert_ne by done. split; [intros [? ?] | intros [? [_ ?]]]; auto.
Qed.

Lemma foldl_ins_Some (reg : list Scenario) (d : gmap string Scenario) (n : string) (s : Scenario) :
  foldl ins d reg !! n = Some s → (s ∈ reg ∧ name s = n) ∨ d !! n = Some s.
Proof.
  revert d. induction reg as [|x reg IH]; intros d; simpl; [auto|].
  intros [[Hin Hn]|Hd]%IH.
  - left. split; [by apply list_elem_of_further | done].
  - unfold ins in Hd. destruct (decide (name x = n)) as [Heq|Hne].
    + rewrite Heq, lookup_insert_eq in Hd. inversion Hd; subst x.
      left. split; [apply list_elem_of_here | done].
    + rewrite lookup_insert_ne in Hd by done. by right.
Qed.

Lemma by_name_None (reg : list Scenario) (n : string) :
  by_name reg !! n = None ↔ n ∉ name <$> reg.
Proof.
  etrans; [exact (foldl_ins_None reg ∅ n)|]. rewrite lookup_empty. tauto.
Qed.

Lemma by_name_Some (reg : list Scenario) (n : string) (s : Scenario) :
  by_name reg !! n = Some s → s ∈ reg ∧ name s = n.
Proof.
  intros H. apply (foldl_ins_Some reg ∅ n s) in H as [H|H]; [done|].
  by rewrite lookup_empty in H.
Qed.

End ByName.

(** A name stands for one descriptor only. *)
Lemma registry_unique (s s' : Scenario) :
  s ∈ SCENARIOS → s' ∈ SCENARIOS → name s = name s' → s = s'.
Proof.
  intros Hs Hs' Heq.
  apply list_elem_of_lookup in Hs as [i Hi], Hs' as [j Hj].
  assert (i = j) as ->.
  { eapply NoDup_lookup; [exact SCENARIOS_names_NoDup | | ].
    - rewrite list_lookup_fmap, Hi. reflexivity.
    - rewrite list_lookup_fmap, Hj. simpl. by rewrite Heq. }
  congruence.
Qed.

Lemma lookup_all_known (lookup : gmap string Scenario) (requested : list string) :
  Forall (λ n, is_Some (lookup !! n)) requested →
  ∃ ss, lookup_all lookup requested = inr ss ∧
        Forall2 (λ n s, lookup !! n = Some s) requested ss.
Proof.
  induction 1 as [|n rest [s Hs] _ [ss [Hss HF]]]; simpl.
  - exists []. split; [done | constructor].
  - rewrite Hs, Hss. exists (s :: ss). split; [done | by constructor].
Qed.

Lemma filter_unknown_nil (lookup : gmap string Scenario) (requested : list string) :
  filter (λ n, lookup !! n = None) requested = [] ↔
  Forall (λ n, is_Some (lookup !! n)) requested.
Proof.
  induction requested as [|n rest IH]; [by split; [constructor|]|].
  rewrite filter_cons, Forall_cons, <- IH, <- not_eq_None_Some.
  destruct (decide (lookup !! n = None)); split; [done | tauto | tauto | tauto].
Qed.

(** ** Computations *)

Lemma bind_ok {A B} (c : M A) (k : A → M B) w a w1 t1 :
  c w = (inr a, w1, t1) →
  bind c k w = (let '(r, w2, t2) := k a w1 in (r, w2, t1 ++ t2)).
Proof. intros H. unfold bind. rewrite H. by destruct (k a w1) as [[? ?] ?]. Qed.

Lemma bind_raise {A B} (c : M A) (k : A → M B) w e w1 t1 :
  c w = (inl e, w1, t1) → bind c k w = (inl e, w1, t1).
Proof. intros H. unfold bind. by rewrite H. Qed.

Lemma for_each_cons {A} (x : A) (l : list A) (body : A → M unit) :
  for_each (x :: l) body = (body x ;;; for_each l body).
Proof. reflexivity. Qed.

(** The loop either runs every element, or runs a prefix and stops at the
    first element whose body raises. *)
Lemma for_each_inv {A} (body : A → M unit) (l : list A) w r w' t :
  for_each l body w = (r, w', t) →
  match r with
  | inr _ => ran body l w w' t
  | inl e =>
      ∃ pre x post w1 t1 t2,
        l = pre ++ x :: post ∧ ran body pre w w1 t1 ∧
        body x w1 = (inl e, w', t2) ∧ t = t1 ++ t2
  end.
Proof.
  revert w r w' t. induction l as [|x l IH]; intros w r w' t H.
  - inversion H; subst. constructor.
  - rewrite for_each_cons in H. unfold bind in H.
    destruct (body x w) as [[[e|[]] w1] t1] eqn:Hx.
    + inversion H; subst. exists [], x, l, w, [], t. repeat split; [constructor | done].
    + destruct (for_each l body w1) as [[r2 w2] t2] eqn:Hl.
      inversion H; subst. apply IH in Hl. destruct r as [e|u].
      * destruct Hl as (pre & y & post & w3 & t3 & t4 & -> & Hpre & Hy & ->).
        exists (x :: pre), y, post, w3, (t1 ++ t3), t4.
        repeat split; [by econstructor | done | by rewrite app_assoc].
      * by econstructor.
Qed.

Lemma for_each_ran {A} (body : A → M unit) (l : list A) w w' t :
  ran body l w w' t → for_each l body w = (inr tt, w', t).
Proof.
  induction 1 as [|x l w w1 w2 t1 t2 Hx _ IH]; [reflexivity|].
  rewrite for_each_cons. rewrite (bind_ok _ _ _ _ _ _ Hx). by rewrite IH.
Qed.

Lemma for_each_stop {A} (body : A → M unit) (pre post : list A) x w w1 w' t1 t2 e :
  ran body pre w w1 t1 → body x w1 = (inl e, w', t2) →
  for_each (pre ++ x :: post) body w = (inl e, w', t1 ++ t2).
Proof.
  intros Hpre Hx. induction Hpre as [|y l w w0 w1 t0 t1 Hy _ IH]; simpl.
  - unfold bind. by rewrite Hx.
  - unfold bind. rewrite Hy. rewrite (IH Hx). by rewrite app_assoc.
Qed.

(** ** The script, step by step *)

Lemma ensure_python_path_eq sdk w :
  ensure_python_path sdk w =
  match sdk with
  | None => (inl (SystemExit sdk_required_msg), w, [])
  | Some p =>
      if path_exists p w
      then (inr tt, push_sys_path (str (resolve p w)) w, [EvSysPath (str (resolve p w))])
      else (inl (SystemExit (sdk_missing_msg p)), w, [])
  end.
Proof.
  destruct sdk as [p|]; [|reflexivity].
  unfold ensure_python_path, bind, ask. by destruct (path_exists p w).
Qed.

Lemma main_eq imp environ argv w :
  main imp environ argv w =
  let args := parse_args environ argv in
  match ensure_python_path (python_sdk args) w with
  | (inl e, w1, t1) => (inl e, w1, t1)
  | (inr _, w1, t1) =>
      match select_scenarios (scenarios args) with
      | inl e => (inl e, w1, t1)
      | inr selected =>
          match for_each selected
                  (λ s, run_scenario imp s (resolve (output args) w1) (codex_path args)) w1 with
          | (inl e, w2, t2) => (inl e, w2, t1 ++ t2)
          | (inr _, w2, t2) => (inr tt, w2, t1 ++ t2 ++ [EvPrint completed_msg])
          end
      end
  end.
Proof.
  unfold main. cbv zeta. unfold bind at 1.
  destruct (ensure_python_path _ w) as [[[e|[]] w1] t1]; [reflexivity|].
  unfold bind at 1, ask at 1.
  destruct (select_scenarios _) as [e|selected].
  - unfold raise. by rewrite app_nil_r.
  - unfold bind, print, perform.
    destruct (for_each selected _ w1) as [[[e|[]] w2] t2]; by rewrite ?app_nil_l.
Qed.

(** ** Selection *)

Lemma select_scenarios_known (requested : list string) :
  requested ≠ [] →
  Forall (λ n, n ∈ name <$> SCENARIOS) requested →
  ∃ ss, select_scenarios requested = inr ss ∧
        Forall2 (λ n s, by_name SCENARIOS !! n = Some s) requested ss.
Proof.
  intros Hne Hall.
  assert (Forall (λ n, is_Some (by_name SCENARIOS !! n)) requested) as Hsome.
  { eapply Forall_impl; [exact Hall|]. intros n Hn. simpl in Hn.
    apply not_eq_None_Some. intros HN. by apply by_name_None in HN. }
  destruct requested as [|n rest]; [done|].
  unfold select_scenarios.
  rewrite (proj2 (filter_unknown_nil _ _) Hsome).
  by apply lookup_all_known.
Qed.

Lemma select_scenarios_unknown (requested : list string) (n : string) :
  n ∈ requested → n ∉ name <$> SCENARIOS →
  select_scenarios requested =
  inl (SystemExit ("Unknown scenario(s): " +:+
                   join ", " (filter (λ n, by_name SCENARIOS !! n = None) requested))).
Proof.
  intros Hin Hun. destruct requested as [|x rest]; [by apply elem_of_nil in Hin|].
  unfold select_scenarios.
  destruct (filter _ (x :: rest)) as [|u us] eqn:Hf; [|reflexivity].
  exfalso. apply filter_unknown_nil in Hf.
  rewrite Forall_forall in Hf. destruct (Hf n Hin) as [s Hs].
  apply by_name_None in Hun. congruence.
Qed.

(** C1. A request that is not empty and names registered scenarios only is
    answered with the descriptor of each requested name, position by
    position: in the order of the request, as long as the request, a name
    requested twice answered twice. *)
Theorem select_scenarios_requested_order (requested : list string) :
  requested ≠ [] →
  Forall (λ n, n ∈ name <$> SCENARIOS) requested →
  ∃ ss,
    select_scenarios requested = inr ss ∧
    length ss = length requested ∧
    name <$> ss = requested ∧
    Forall2 (λ n s, s ∈ SCENARIOS ∧ name s = n ∧
                    ∀ s', s' ∈ SCENARIOS → name s' = n → s' = s) requested ss.
Proof.
  intros Hne Hall.
  destruct (select_scenarios_known requested Hne Hall) as [ss [Hsel HF]].
  exists ss. split; [exact Hsel|].
  assert (Forall2 (λ n s, s ∈ SCENARIOS ∧ name s = n) requested ss) as HF'.
  { eapply Forall2_impl; [exact HF|]. intros n s Hs. by apply by_name_Some. }
  split; [symmetry; by eapply Forall2_length|].
  split.
  - clear -HF'. induction HF' as [|n s ns ss [_ Hn] _ IH]; [done|].
    rewrite fmap_cons. by f_equal.
  - eapply Forall2_impl; [exact HF'|]. intros n s [Hin Hn].
    split; [done|]. split; [done|].
    intros s' Hin' Hn'. apply registry_unique; congruence.
Qed.

Lemma select_scenarios_requested_order_witness :
  ∃ ss,
    select_scenarios ["sandbox_approval_denied"; "thread_basic"; "sandbox_approval_denied"]
      = inr ss ∧
    length ss = 3 ∧
    name <$> ss = ["sandbox_approval_denied"; "thread_basic"; "sandbox_approval_denied"].
Proof.
  destruct (select_scenarios_requested_order
              ["sandbox_approval_denied"; "thread_basic"; "sandbox_approval_denied"])
    as (ss & Hsel & Hlen & Hnames & _).
  - discriminate.
  - apply (bool_decide_unpack _). vm_compute. exact I.
  - exists ss. auto.
Defined.

(** C2. The empty request is answered with the whole registry, in
    registration order and of the registry's size. *)
Theorem select_scenarios_empty_all :
  select_scenarios [] = inr SCENARIOS ∧
  ∀ ss, select_scenarios [] = inr ss →
        length ss = length SCENARIOS ∧
        ∀ i, ss !! i = SCENARIOS !! i.
Proof.
  split; [reflexivity|].
  intros ss Hsel. simpl in Hsel. inversion Hsel; subst ss. auto.
Qed.

(** C3. A request with a name the registry does not have is refused with
    [SystemExit]; the message carries every such name; and a run of the
    script given that request ends in an exception without having imported a
    scenario module or called an entry point. *)
Theorem unknown_scenarios_abort (requested : list string) :
  (∃ n, n ∈ requested ∧ n ∉ name <$> SCENARIOS) →
  ∃ msg,
    select_scenarios requested = inl (SystemExit msg) ∧
    (∀ n, n ∈ requested → n ∉ name <$> SCENARIOS → contains n msg = true) ∧
    ∀ imp environ argv w r w' t,
      opt_scenario argv = requested →
      main imp environ argv w = (r, w', t) →
      (∃ e, r = inl e) ∧ imports t = [] ∧ calls t = [] ∧
      (∀ p, python_sdk (parse_args environ argv) = Some p →
            path_exists p w = true → r = inl (SystemExit msg)).
Proof.
  intros (n0 & Hin0 & Hun0).
  eexists. split; [by apply (select_scenarios_unknown requested n0)|].
  split.
  - intros n Hin Hun. apply contains_append_skip, contains_join.
    apply list_elem_of_filter. split; [by apply by_name_None | done].
  - intros imp environ argv w r w' t Hreq Hmain.
    rewrite main_eq in Hmain. cbv zeta in Hmain.
    rewrite ensure_python_path_eq in Hmain.
    change (scenarios (parse_args environ argv)) with (opt_scenario argv) in Hmain.
    rewrite Hreq, (select_scenarios_unknown requested n0 Hin0 Hun0) in Hmain.
    destruct (python_sdk (parse_args environ argv)) as [p|].
    + destruct (path_exists p w) eqn:Hex; inversion Hmain; subst r w' t.
      * repeat split; eauto.
      * repeat split; eauto. intros p' [= <-] Hex'. congruence.
    + inversion Hmain; subst r w' t. repeat split; eauto. discriminate.
Qed.

Lemma unknown_scenarios_abort_witness :
  ∃ msg,
    select_scenarios ["nope"; "thread_basic"; "nada"] = inl (SystemExit msg) ∧
    contains "nope" msg = true ∧ contains "nada" msg = true ∧
    (main full_importer (Some "/sdk")
       (MkArgv None None None ["nope"; "thread_basic"; "nada"]) demo_world).1.1
    = inl (SystemExit msg).
Proof.
  destruct (unknown_scenarios_abort ["nope"; "thread_basic"; "nada"])
    as (msg & Hsel & Hall & Hmain).
  - exists "nope". split; [apply list_elem_of_here|].
    apply (bool_decide_unpack _). vm_compute. exact I.
  - exists msg. split; [exact Hsel|].
    split; [|split]; try (apply Hall; apply (bool_decide_unpack _); vm_compute; exact I).
    destruct (main full_importer (Some "/sdk")
                (MkArgv None None None ["nope"; "thread_basic"; "nada"]) demo_world)
      as [[r w'] t] eqn:Hrun.
    destruct (Hmain full_importer (Some "/sdk")
                (MkArgv None None None ["nope"; "thread_basic"; "nada"])
                demo_world r w' t eq_refl Hrun) as (_ & _ & _ & Hr).
    apply (Hr (Path_of "/sdk")); vm_compute; reflexivity.
Defined.

(** ** The file system *)

Lemma node_at_weaken (tree tree' : gmap (list string) Node) k n :
  tree ⊆ tree' → node_at tree k = Some n → node_at tree' k = Some n.
Proof.
  intros Hsub. destruct k; simpl; [done|].
  intros H. by eapply lookup_weaken.
Qed.

Lemma walk_weaken (tree tree' : gmap (list string) Node) cs cur k :
  tree ⊆ tree' → walk tree cur cs = inr k → walk tree' cur cs = inr k.
Proof.
  intros Hsub. revert cur. induction cs as [|c cs IH]; intros cur; simpl; [done|].
  destruct (node_at tree cur) as [[|]|] eqn:Hn; try discriminate.
  rewrite (node_at_weaken _ _ _ _ Hsub Hn). apply IH.
Qed.

Lemma walk_snoc (tree : gmap (list string) Node) cs c cur :
  walk tree cur (cs ++ [c]) =
  match walk tree cur cs with
  | inl e => inl e
  | inr k =>
      match node_at tree k with
      | None => inl ENOENT
      | Some File => inl ENOTDIR
      | Some Dir => inr (step k c)
      end
  end.
Proof.
  revert cur. induction cs as [|x cs IH]; intros cur; simpl.
  - by destruct (node_at tree cur) as [[|]|].
  - destruct (node_at tree cur) as [[|]|]; [done | apply IH | done].
Qed.

Lemma step_plain cur c : c ≠ ".." → step cur c = cur ++ [c].
Proof.
  intros Hc. unfold step. destruct (String.eqb c "..") eqn:E; [|done].
  by apply String.eqb_eq in E.
Qed.

(** Along plain components a walk that arrives, arrives at the path itself
    and has found a directory at every proper prefix. *)
Lemma walk_plain_inr (tree : gmap (list string) Node) cs cur k :
  plain cs → walk tree cur cs = inr k →
  k = cur ++ cs ∧
  ∀ pre, pre `prefix_of` cs → pre ≠ cs → node_at tree (cur ++ pre) = Some Dir.
Proof.
  intros Hp. revert cur. induction Hp as [|c cs Hc _ IH]; intros cur; simpl.
  - intros [= <-]. split; [by rewrite app_nil_r|]. intros pre Hpre%prefix_nil_inv. done.
  - destruct (node_at tree cur) as [[|]|] eqn:Hn; try discriminate.
    rewrite (step_plain _ _ Hc). intros [-> Hdirs]%IH. split; [by rewrite <- app_assoc|].
    intros [|x pre] Hpre Hne; [by rewrite app_nil_r|].
    apply prefix_cons_inv_1 in Hpre as Hx. subst x.
    apply prefix_cons_inv_2 in Hpre.
    rewrite (cons_middle c cur pre), app_assoc. apply Hdirs; [done | congruence].
Qed.

(** Without a file in the way, a walk along plain components arrives or
    misses a directory; it never runs into a file. *)
Lemma walk_plain_cases (tree : gmap (list string) Node) cs cur :
  plain cs →
  (∀ pre, pre `prefix_of` cs → node_at tree (cur ++ pre) ≠ Some File) →
  walk tree cur cs = inr (cur ++ cs) ∨ walk tree cur cs = inl ENOENT.
Proof.
  intros Hp. revert cur. induction Hp as [|c cs Hc _ IH]; intros cur Hfree; simpl.
  - left. by rewrite app_nil_r.
  - destruct (node_at tree cur) as [[|]|] eqn:Hn.
    + exfalso. apply (Hfree []); [apply prefix_nil | by rewrite app_nil_r].
    + rewrite (step_plain _ _ Hc), (cons_middle c cur cs), app_assoc. apply IH.
      intros pre Hpre. rewrite <- app_assoc. apply Hfree. simpl. by apply prefix_cons.
    + by right.
Qed.

Lemma is_dir_inv p w :
  is_dir p w = true →
  ∃ k, walk (fs w) [] (abs_parts w p) = inr k ∧ node_at (fs w) k = Some Dir.
Proof.
  unfold is_dir, os_stat. destruct (walk _ _ _) as [e|k]; [done|].
  destruct (node_at (fs w) k) as [[|]|] eqn:Hn; try done. intros _. eauto.
Qed.

Lemma is_dir_intro p w k :
  walk (fs w) [] (abs_parts w p) = inr k → node_at (fs w) k = Some Dir →
  is_dir p w = true.
Proof. intros Hw Hn. unfold is_dir, os_stat. by rewrite Hw, Hn. Qed.

Lemma is_dir_exists p w : is_dir p w = true → path_exists p w = true.
Proof. unfold is_dir, path_exists. by destruct (os_stat p w) as [|[|]]. Qed.

Lemma os_mkdir_is_dir p w : is_dir p w = true → os_mkdir p w = (inl EEXIST, w).
Proof. intros (k & Hw & Hn)%is_dir_inv. unfold os_mkdir. by rewrite Hw, Hn. Qed.

(** What a successful [os.mkdir] leaves: the same world with one more
    directory, at a place that was free. *)
Lemma os_mkdir_ok p w u w' :
  os_mkdir p w = (inr u, w') →
  ∃ k, walk (fs w) [] (abs_parts w p) = inr k ∧ fs w !! k = None ∧ k ≠ [] ∧
       w' = add_dir k w.
Proof.
  unfold os_mkdir. destruct (walk _ _ _) as [e|k] eqn:Hw; [done|].
  destruct k as [|x k]; simpl; [done|].
  destruct (fs w !! (x :: k)) eqn:Hk; [done|].
  intros [= _ <-]. by exists (x :: k).
Qed.

Lemma os_mkdir_unchanged p w e w' : os_mkdir p w = (inl e, w') → w' = w.
Proof.
  unfold os_mkdir. destruct (walk _ _ _) as [e'|k]; [by intros [= _ <-]|].
  destruct (node_at (fs w) k); [by intros [= _ <-] | done].
Qed.

Lemma extends_refl w : extends w w.
Proof. repeat split; auto. Qed.

Lemma extends_trans w1 w2 w3 : extends w1 w2 → extends w2 w3 → extends w1 w3.
Proof.
  intros (Hc1 & Hs1 & Hf1 & Hd1) (Hc2 & Hs2 & Hf2 & Hd2).
  repeat split; [congruence | congruence | by etrans |].
  intros k n Hk. destruct (Hd2 k n Hk) as [H|H]; [by apply Hd1 | by right].
Qed.

Lemma add_dir_extends k w : fs w !! k = None → extends w (add_dir k w).
Proof.
  intros Hk. repeat split; simpl; [by apply insert_subseteq|].
  intros k' n. destruct (decide (k = k')) as [->|Hne].
  - rewrite lookup_insert_eq. intros [= <-]. by right.
  - rewrite lookup_insert_ne by done. by left.
Qed.

Lemma os_mkdir_post p w u w' :
  os_mkdir p w = (inr u, w') → is_dir p w' = true ∧ extends w w'.
Proof.
  intros (k & Hw & Hk & Hne & ->)%os_mkdir_ok.
  split; [|by apply add_dir_extends].
  apply (is_dir_intro _ _ k).
  - change (abs_parts (add_dir k w) p) with (abs_parts w p).
    eapply walk_weaken; [|exact Hw]. simpl. by apply insert_subseteq.
  - destruct k; [done|]. simpl. apply lookup_insert_eq.
Qed.

Lemma mkdir_leaf_post p w w' :
  mkdir_leaf p w = (inr tt, w') → is_dir p w' = true ∧ extends w w'.
Proof.
  unfold mkdir_leaf. destruct (os_mkdir p w) as [[e|u] w1] eqn:Hm.
  - destruct e; [done | |]; destruct (is_dir p w) eqn:Hd; intros [= <-];
      (split; [done | apply extends_refl]).
  - intros [= <-]. by eapply os_mkdir_post.
Qed.

Lemma mkdir_parents_unfold anchor rparts w :
  mkdir_parents anchor rparts w =
  let p := MkPath anchor (rev rparts) in
  match os_mkdir p w with
  | (inr _, w') => (inr tt, w')
  | (inl ENOENT, _) =>
      match rparts with
      | [] => (inl (FileNotFoundError p), w)
      | _ :: rparents =>
          match mkdir_parents anchor rparents w with
          | (inl e, w') => (inl e, w')
          | (inr _, w') => mkdir_leaf p w'
          end
      end
  | (inl e, _) => if is_dir p w then (inr tt, w) else (inl (os_error e p), w)
  end.
Proof. by destruct rparts. Qed.

(** [mkdir] of a directory that is there: no error, nothing changes. *)
Lemma mkdir_parents_is_dir anchor rparts w :
  is_dir (MkPath anchor (rev rparts)) w = true →
  mkdir_parents anchor rparts w = (inr tt, w).
Proof.
  intros Hd. rewrite mkdir_parents_unfold. cbv zeta.
  by rewrite (os_mkdir_is_dir _ _ Hd), Hd.
Qed.

(** After a [mkdir] that did not raise, the directory is there. *)
Lemma mkdir_parents_post anchor rparts w w' :
  mkdir_parents anchor rparts w = (inr tt, w') →
  is_dir (MkPath anchor (rev rparts)) w' = true ∧ extends w w'.
Proof.
  revert w w'. induction rparts as [|x rp IH]; intros w w';
    rewrite mkdir_parents_unfold; cbv zeta;
    destruct (os_mkdir _ w) as [[e|u] w1] eqn:Hm.
  - destruct e; [done | |]; destruct (is_dir _ w) eqn:Hd; intros [= <-];
      (split; [done | apply extends_refl]).
  - intros [= <-]. by eapply os_mkdir_post.
  - destruct e.
    + destruct (mkdir_parents anchor rp w) as [[e'|[]] w2] eqn:Hrec; [done|].
      intros [Hd Hext]%mkdir_leaf_post. split; [done|].
      eapply extends_trans; [|exact Hext]. by apply (IH w w2).
    + destruct (is_dir _ w) eqn:Hd; intros [= <-]; (split; [done | apply extends_refl]).
    + destruct (is_dir _ w) eqn:Hd; intros [= <-]; (split; [done | apply extends_refl]).
  - intros [= <-]. by eapply os_mkdir_post.
Qed.

Lemma Path_eta p : MkPath (absolute p) (parts p) = p.
Proof. by destruct p. Qed.

Lemma mkdir_is_dir p w : is_dir p w = true → mkdir p w = (inr tt, w).
Proof.
  intros Hd. unfold mkdir. apply mkdir_parents_is_dir.
  by rewrite rev_involutive, Path_eta.
Qed.

Lemma mkdir_post p w w' :
  mkdir p w = (inr tt, w') → is_dir p w' = true ∧ extends w w'.
Proof.
  unfold mkdir. intros H%mkdir_parents_post.
  by rewrite rev_involutive, Path_eta in H.
Qed.

Lemma unobstructed_extends w w' cs :
  extends w w' → unobstructed (fs w) cs → unobstructed (fs w') cs.
Proof.
  intros (_ & _ & _ & Hd) Hfree k Hk Hfile. apply (Hfree k Hk).
  destruct k as [|x k]; [done|]. simpl in *.
  by destruct (Hd _ _ Hfile).
Qed.

Lemma unobstructed_prefix (tree : gmap (list string) Node) cs cs' :
  cs' `prefix_of` cs → unobstructed tree cs → unobstructed tree cs'.
Proof. intros Hpre Hfree k Hk. apply Hfree. by etrans. Qed.

(** [os.mkdir] of an absolute plain path with no file in the way: it makes
    the directory, or finds it there, or misses a parent. *)
Lemma os_mkdir_plain_cases cs w :
  plain cs → unobstructed (fs w) cs →
  (∃ w', os_mkdir (MkPath true cs) w = (inr tt, w')) ∨
  (os_mkdir (MkPath true cs) w = (inl EEXIST, w) ∧ is_dir (MkPath true cs) w = true) ∨
  (os_mkdir (MkPath true cs) w = (inl ENOENT, w) ∧ walk (fs w) [] cs = inl ENOENT).
Proof.
  intros Hp Hfree. unfold os_mkdir, is_dir, os_stat, abs_parts. simpl.
  destruct (walk_plain_cases (fs w) cs [] Hp) as [Hw|Hw]; [apply Hfree | |].
  - rewrite Hw. simpl. destruct (node_at (fs w) cs) as [[|]|] eqn:Hn.
    + exfalso. by apply (Hfree cs).
    + right. left. done.
    + left. eauto.
  - rewrite Hw. right. right. done.
Qed.

(** An absolute plain path with no file in the way can always be made,
    whatever part of it is missing. *)
Lemma mkdir_parents_creates rparts w :
  plain (rev rparts) → unobstructed (fs w) (rev rparts) →
  ∃ w', mkdir_parents true rparts w = (inr tt, w').
Proof.
  revert w. induction rparts as [|x rp IH]; intros w Hp Hfree;
    rewrite mkdir_parents_unfold; cbv zeta;
    destruct (os_mkdir_plain_cases _ w Hp Hfree) as [[w' Hm]|[[Hm Hd]|[Hm Hw]]];
    rewrite Hm; try rewrite Hd; eauto.
  - discriminate Hw.
  - simpl in Hp, Hfree. apply Forall_app in Hp as Hp'. destruct Hp' as [Hp' _].
    destruct (IH w Hp') as [w1 Hrec].
    { eapply unobstructed_prefix; [|exact Hfree]. by apply prefix_app_r. }
    rewrite Hrec. apply mkdir_parents_post in Hrec as [Hd1 Hext].
    unfold mkdir_leaf.
    destruct (os_mkdir_plain_cases _ w1 Hp (unobstructed_extends _ _ _ Hext Hfree))
      as [[w' Hm']|[[Hm' Hd']|[Hm' Hw']]]; simpl; rewrite Hm'; try rewrite Hd'; eauto.
    exfalso. apply is_dir_inv in Hd1 as (k & Hk & Hn). simpl in Hk.
    unfold abs_parts in Hk. simpl in Hk.
    rewrite walk_snoc, Hk, Hn in Hw'. discriminate.
Qed.

Lemma mkdir_creates p w :
  absolute p = true → plain (parts p) → unobstructed (fs w) (parts p) →
  ∃ w', mkdir p w = (inr tt, w').
Proof.
  intros Ha Hp Hfree. unfold mkdir. rewrite Ha.
  apply mkdir_parents_creates; by rewrite rev_involutive.
Qed.

(** Where an absolute plain path is a directory, so is every prefix of it. *)
Lemma is_dir_prefixes p w :
  absolute p = true → plain (parts p) → is_dir p w = true →
  ∀ k, k `prefix_of` parts p → node_at (fs w) k = Some Dir.
Proof.
  intros Ha Hp (k0 & Hw & Hn)%is_dir_inv k Hk.
  unfold abs_parts in Hw. rewrite Ha in Hw.
  apply walk_plain_inr in Hw as [-> Hdirs]; [|done]. simpl in *.
  destruct (decide (k = parts p)) as [->|Hne]; [done|]. by apply Hdirs.
Qed.

(** ** Paths *)

Lemma has_char_append c (a b : string) :
  has_char c (a +:+ b) = has_char c a || has_char c b.
Proof.
  induction a as [|x a IH]; [reflexivity|].
  change (String x a +:+ b) with (String x (a +:+ b)).
  simpl. by rewrite IH, orb_assoc.
Qed.

Lemma split_slash_file_name (s : string) :
  has_char "/" s = false → split_slash s = [s].
Proof.
  induction s as [|x s IH]; [reflexivity|]. simpl.
  intros [Hx Hs]%orb_false_iff. rewrite Hx, (IH Hs). reflexivity.
Qed.

Lemma keep_part_jsonl (n : string) : keep_part (n +:+ ".jsonl") = true.
Proof.
  destruct n as [|c [|c' n]]; [reflexivity | |].
  - unfold keep_part. simpl. by destruct (Ascii.eqb c ".").
  - unfold keep_part. simpl. destruct (Ascii.eqb c "."); [|reflexivity].
    simpl. by destruct (Ascii.eqb c' "j").
Qed.

Lemma prefix_slash (s : string) :
  String.prefix "/" s = match s with String c _ => Ascii.eqb c "/" | _ => false end.
Proof.
  destruct s as [|c s]; [reflexivity|].
  change (String.prefix "/" (String c s))
    with (if ascii_dec "/" c then String.prefix "" s else false).
  destruct (ascii_dec "/" c) as [<-|Hne]; [by destruct s|].
  symmetry. apply Ascii.eqb_neq. congruence.
Qed.

(** A name without a slash gives the one component [<name>.jsonl]. *)
Lemma Path_of_file_name (n : string) :
  has_char "/" n = false → Path_of (n +:+ ".jsonl") = MkPath false [n +:+ ".jsonl"].
Proof.
  intros Hn. unfold Path_of. f_equal.
  - rewrite prefix_slash. destruct n as [|c n]; [reflexivity|].
    simpl in *. by apply orb_false_iff in Hn as [-> _].
  - rewrite split_slash_file_name by (by rewrite has_char_append, Hn).
    simpl. by rewrite keep_part_jsonl.
Qed.

Lemma joinpath_file_name (d : Path) (n : string) :
  has_char "/" n = false →
  joinpath d (n +:+ ".jsonl") = MkPath (absolute d) (parts d ++ [n +:+ ".jsonl"]).
Proof. intros Hn. unfold joinpath. by rewrite (Path_of_file_name n Hn). Qed.

Lemma parent_joinpath_file_name (d : Path) (n : string) :
  has_char "/" n = false → parent (joinpath d (n +:+ ".jsonl")) = d.
Proof.
  intros Hn. rewrite (joinpath_file_name d n Hn). unfold parent. simpl.
  by rewrite removelast_last, Path_eta.
Qed.

(** Rendered, a further component comes after a slash. *)
Lemma str_snoc (d : Path) (f : string) :
  parts d ≠ [] →
  str (MkPath (absolute d) (parts d ++ [f])) = str d +:+ "/" +:+ f.
Proof.
  intros Hne. unfold str. simpl.
  destruct (parts d) as [|x l] eqn:Hparts; [done|].
  change ((x :: l) ++ [f]) with (x :: (l ++ [f])).
  change (x :: l ++ [f]) with ((x :: l) ++ [f]) at 2.
  rewrite join_snoc by done. by rewrite !append_assoc.
Qed.

Lemma plain_removelast cs : plain cs → plain (removelast cs).
Proof. intros H. rewrite removelast_firstn_len. by apply Forall_take. Qed.

Lemma plain_step cur c : plain cur → plain (step cur c).
Proof.
  intros H. unfold step. destruct (String.eqb c "..") eqn:E.
  - by apply plain_removelast.
  - apply Forall_app. split; [done|]. constructor; [|constructor].
    by apply String.eqb_neq.
Qed.

(** A resolved path is absolute and has no [".."] left. *)
Lemma resolve_absolute_plain p w :
  absolute (resolve p w) = true ∧ plain (parts (resolve p w)).
Proof.
  split; [reflexivity|]. unfold resolve. simpl.
  assert (∀ cs acc, plain acc → plain (foldl step acc cs)) as H.
  { induction cs as [|c cs IH]; intros acc Hacc; [done|]. simpl.
    by apply IH, plain_step. }
  apply H. constructor.
Qed.

(** ** One scenario *)

(** The run of one scenario, laid out by how far it gets. *)
Lemma run_scenario_eq imp s d c w :
  run_scenario imp s d c w =
  match imp (module s) w with
  | (inl e, w1) => (inl e, w1, [EvImport (module s)])
  | (inr m, w1) =>
      let h := getattr m (function s) in
      let out := joinpath d (name s +:+ ".jsonl") in
      let kwargs := <["output_path" := out]> (override_kwargs c) in
      if is_None h
      then (inl (SystemExit (entry_point_msg s)), w1, [EvImport (module s)])
      else
        match mkdir d w1 with
        | (inl e, w2) => (inl e, w2, [EvImport (module s); EvMkdir d])
        | (inr _, w2) =>
            match mkdir (parent out) w2 with
            | (inl e, w3) =>
                (inl e, w3, [EvImport (module s); EvMkdir d; EvMkdir (parent out)])
            | (inr _, w3) =>
                match apply_obj h kwargs w3 with
                | (r, w4) =>
                    (r, w4, [EvImport (module s); EvMkdir d; EvMkdir (parent out);
                             EvPrint (running_msg s out);
                             EvCall (module s) (function s) kwargs])
                end
            end
        end
  end.
Proof.
  unfold run_scenario, bind at 1, import_module, perform.
  destruct (imp (module s) w) as [[e|m] w1]; [reflexivity|].
  cbv zeta. destruct (is_None (getattr m (function s))); [reflexivity|].
  unfold bind at 1, mkdir_p at 1, perform.
  destruct (mkdir d w1) as [[e|[]] w2]; [reflexivity|].
  unfold bind at 1, mkdir_p at 1, perform.
  destruct (mkdir (parent _) w2) as [[e|[]] w3]; [reflexivity|].
  unfold bind, print, call, perform.
  by destruct (apply_obj _ _ w3) as [r w4].
Qed.

(** A run imports its module first and nothing else, and never prints the
    completion line. *)
Ltac not_in_trace :=
  let Hin := fresh "Hin" in
  intros Hin;
  repeat (apply elem_of_cons in Hin as [Hin|Hin]; [discriminate Hin|]);
  by apply elem_of_nil in Hin.

Lemma run_scenario_trace imp s d c w r w' t :
  run_scenario imp s d c w = (r, w', t) →
  imports t = [module s] ∧ (EvPrint completed_msg ∉ t) ∧ (length (calls t) ≤ 1)%nat.
Proof.
  rewrite run_scenario_eq. cbv zeta.
  destruct (imp (module s) w) as [[e|m] w1].
  { intros [= <- <- <-]. repeat split; [not_in_trace | simpl; lia]. }
  destruct (is_None _).
  { intros [= <- <- <-]. repeat split; [not_in_trace | simpl; lia]. }
  destruct (mkdir d w1) as [[e|[]] w2].
  { intros [= <- <- <-]. repeat split; [not_in_trace | simpl; lia]. }
  destruct (mkdir (parent _) w2) as [[e|[]] w3].
  { intros [= <- <- <-]. repeat split; [not_in_trace | simpl; lia]. }
  destruct (apply_obj _ _ w3) as [r4 w4].
  intros [= <- <- <-]. repeat split; [not_in_trace | simpl; lia].
Qed.

Lemma entry_point_msg_names s :
  contains (name s) (entry_point_msg s) = true ∧
  contains (function s) (entry_point_msg s) = true ∧
  contains (module s) (entry_point_msg s) = true.
Proof.
  unfold entry_point_msg. repeat split.
  - apply contains_append.
  - do 3 apply contains_append_skip. apply contains_append_l, contains_self.
  - do 5 apply contains_append_skip. apply contains_self.
Qed.

(** C7. Where the imported module has nothing under the name of the entry
    point, the run of the scenario ends in [SystemExit] with a message that
    names the scenario and the entry point, right after the import; and the
    loop over the scenarios ends there with that exception, whatever
    scenarios were still to come. *)
Theorem missing_entry_point_aborts (imp : Importer) (s : Scenario) (d : Path)
    (c : option Path) (w : World) (m : PyModule) (w1 : World) :
  imp (module s) w = (inr m, w1) →
  getattr m (function s) = PyNone →
  ∃ msg,
    run_scenario imp s d c w = (inl (SystemExit msg), w1, [EvImport (module s)]) ∧
    contains (name s) msg = true ∧
    contains (function s) msg = true ∧
    ∀ pre post w0 t0,
      ran (λ x, run_scenario imp x d c) pre w0 w t0 →
      for_each (pre ++ s :: post) (λ x, run_scenario imp x d c) w0 =
      (inl (SystemExit msg), w1, t0 ++ [EvImport (module s)]).
Proof.
  intros Himp Hnone. exists (entry_point_msg s).
  assert (run_scenario imp s d c w =
          (inl (SystemExit (entry_point_msg s)), w1, [EvImport (module s)])) as Hrun.
  { rewrite run_scenario_eq, Himp. cbv zeta. by rewrite Hnone. }
  destruct (entry_point_msg_names s) as (Hn & Hf & _).
  repeat split; [exact Hrun | exact Hn | exact Hf |].
  intros pre post w0 t0 Hpre. by apply (for_each_stop _ pre post s w0 w).
Qed.

(** C10. A run whose module fails to import, or whose module has nothing
    under the name of the entry point, raises with the import as its only
    step: the script makes no directory and calls nothing, and the world is
    the one the import left. *)
Theorem no_directory_before_resolution (imp : Importer) (s : Scenario) (d : Path)
    (c : option Path) (w : World) (r : exn + unit) (w' : World) (t : list Event) :
  run_scenario imp s d c w = (r, w', t) →
  (∃ e, (imp (module s) w).1 = inl e) ∨
  (∃ m, (imp (module s) w).1 = inr m ∧ getattr m (function s) = PyNone) →
  (∃ e, r = inl e) ∧
  w' = (imp (module s) w).2 ∧
  t = [EvImport (module s)] ∧
  (∀ ev, ev ∈ t → is_mkdir ev = false ∧ is_call ev = false) ∧
  (fs (imp (module s) w).2 = fs w → fs w' = fs w).
Proof.
  assert (∀ ev, ev ∈ [EvImport (module s)] → is_mkdir ev = false ∧ is_call ev = false)
    as Honly by (by intros ev ->%list_elem_of_singleton).
  rewrite run_scenario_eq. destruct (imp (module s) w) as [[e0|m0] w1]; simpl.
  - intros [= <- <- <-] _. repeat split; eauto; by apply Honly.
  - intros Hrun [[e He]|(m & [= <-] & Hnone)]; [discriminate|].
    rewrite Hnone in Hrun. simpl in Hrun. inversion Hrun; subst r w' t.
    repeat split; eauto; by apply Honly.
Qed.

(** C4. A run that has resolved its entry point and has its directories
    calls the entry point once and no more.  The keyword arguments hold the
    computed path under [output_path]; under [codex_path] they hold the
    override when one was given and nothing at all when none was; and they
    hold nothing else. *)
Theorem entry_point_called_once (imp : Importer) (s : Scenario) (d : Path)
    (c : option Path) (w : World) (m : PyModule) (w1 w2 w3 : World) (h : Handler) :
  imp (module s) w = (inr m, w1) →
  getattr m (function s) = PyCallable h →
  mkdir d w1 = (inr tt, w2) →
  mkdir (parent (joinpath d (name s +:+ ".jsonl"))) w2 = (inr tt, w3) →
  ∃ kwargs r w' t,
    run_scenario imp s d c w = (r, w', t) ∧
    h kwargs w3 = (r, w') ∧
    calls t = [EvCall (module s) (function s) kwargs] ∧
    kwargs !! "output_path" = Some (joinpath d (name s +:+ ".jsonl")) ∧
    kwargs !! "codex_path" = c ∧
    ∀ key, is_Some (kwargs !! key) →
           key = "output_path" ∨ (key = "codex_path" ∧ is_Some c).
Proof.
  intros Himp Hh Hd Hp.
  set (out := joinpath d (name s +:+ ".jsonl")) in *.
  exists (<["output_path" := out]> (override_kwargs c)).
  destruct (h (<["output_path" := out]> (override_kwargs c)) w3) as [r w'] eqn:Hcall.
  exists r, w'. eexists. split.
  { rewrite run_scenario_eq, Himp. cbv zeta. fold out. rewrite Hh, Hd, Hp. simpl.
    rewrite Hcall. reflexivity. }
  split; [reflexivity|]. split; [reflexivity|].
  split; [apply lookup_insert_eq|]. split.
  - rewrite lookup_insert_ne by done. destruct c as [p|]; simpl.
    + apply lookup_insert_eq.
    + apply lookup_empty.
  - intros key [v Hv]. destruct (decide (key = "output_path")) as [?|Hne]; [by left|].
    right. rewrite lookup_insert_ne in Hv by done. destruct c as [p|]; simpl in Hv.
    + destruct (decide (key = "codex_path")) as [?|Hne']; [by eauto|].
      rewrite lookup_insert_ne in Hv by done. by rewrite lookup_empty in Hv.
    + by rewrite lookup_empty in Hv.
Qed.

(** C5. For a scenario whose name is a file name, whose module imports and
    has its entry point: the output path is the destination directory with
    the one further component [<name>.jsonl], written
    [<directory>/<name>.jsonl].  A destination that is a directory already
    is left as it is, without an error.  Whenever making the destination
    does not raise, the destination is a directory afterwards and nothing
    that was there is lost.  A destination given as an absolute path without
    [".."], with no regular file where a directory belongs, can always be
    made, and every missing parent with it.  In each case the run goes on to
    the call of the entry point with that path. *)
Theorem output_path_and_directory (imp : Importer) (s : Scenario) (d : Path)
    (c : option Path) (w : World) (m : PyModule) (w1 : World) :
  has_char "/" (name s) = false →
  imp (module s) w = (inr m, w1) →
  is_None (getattr m (function s)) = false →
  let out := joinpath d (name s +:+ ".jsonl") in
  let kwargs := <["output_path" := out]> (override_kwargs c) in
  let reaches_call (w2 : World) :=
    run_scenario imp s d c w =
    (let '(r, w') := apply_obj (getattr m (function s)) kwargs w2 in
     (r, w', [EvImport (module s); EvMkdir d; EvMkdir d;
              EvPrint (running_msg s out);
              EvCall (module s) (function s) kwargs])) in
  (absolute out = absolute d ∧
   parts out = parts d ++ [name s +:+ ".jsonl"] ∧
   (parts d ≠ [] → str out = str d +:+ "/" +:+ name s +:+ ".jsonl")) ∧
  (is_dir d w1 = true → mkdir d w1 = (inr tt, w1) ∧ reaches_call w1) ∧
  (∀ w2, mkdir d w1 = (inr tt, w2) →
         is_dir d w2 = true ∧ extends w1 w2 ∧ reaches_call w2) ∧
  (absolute d = true → plain (parts d) → unobstructed (fs w1) (parts d) →
   ∃ w2, mkdir d w1 = (inr tt, w2) ∧
         ∀ k, k `prefix_of` parts d → node_at (fs w2) k = Some Dir).
Proof.
  intros Hname Himp Hh out kwargs reaches_call.
  assert (∀ w2, mkdir d w1 = (inr tt, w2) →
                is_dir d w2 = true ∧ extends w1 w2 ∧ reaches_call w2) as Hreach.
  { intros w2 Hd. destruct (mkdir_post d w1 w2 Hd) as [Hdir Hext].
    split; [exact Hdir|]. split; [exact Hext|]. unfold reaches_call.
    assert (parent out = d) as Hpar by (by apply parent_joinpath_file_name).
    rewrite run_scenario_eq, Himp. cbv zeta. rewrite Hh, Hd. fold out kwargs.
    rewrite Hpar, (mkdir_is_dir d w2 Hdir). by destruct (apply_obj _ kwargs w2). }
  split; [|split; [|split]].
  - unfold out. rewrite (joinpath_file_name d _ Hname). simpl.
    split; [done|]. split; [done|]. intros Hne. by apply str_snoc.
  - intros Hdir. pose proof (mkdir_is_dir d w1 Hdir) as Hd.
    split; [exact Hd|]. by apply Hreach.
  - exact Hreach.
  - intros Ha Hp Hfree. destruct (mkdir_creates d w1 Ha Hp Hfree) as [w2 Hd].
    exists w2. split; [exact Hd|].
    apply is_dir_prefixes; [done | done |]. by apply mkdir_post in Hd as [? _].
Qed.

(** ** The whole run *)

Lemma imports_app t1 t2 : imports (t1 ++ t2) = imports t1 ++ imports t2.
Proof. apply omap_app. Qed.

(** Scenarios that ran left their imports in order, and no completion line. *)
Lemma ran_trace imp d c l w w' t :
  ran (λ s, run_scenario imp s d c) l w w' t →
  imports t = module <$> l ∧ (EvPrint completed_msg ∉ t).
Proof.
  induction 1 as [|s l w w1 w2 t1 t2 Hs _ [IHi IHp]]; [split; [done | apply not_elem_of_nil]|].
  apply run_scenario_trace in Hs as (Hi & Hp & _).
  split.
  - by rewrite imports_app, Hi, IHi.
  - rewrite elem_of_app. tauto.
Qed.

Lemma ran_deterministic {A} (body : A → M unit) l w w1 w2 t1 t2 :
  ran body l w w1 t1 → ran body l w w2 t2 → w1 = w2 ∧ t1 = t2.
Proof.
  intros H1%for_each_ran H2%for_each_ran. rewrite H1 in H2. by inversion H2.
Qed.

(** C6. Once the SDK path is accepted and the selection made, the script
    runs the selected scenarios one after the other in the selected order.
    Either all of them run without raising, and then the completion line is
    printed last; or the run stops with the exception of the first scenario
    that raises, having started none of the scenarios after it.  The
    completion line is printed exactly when all of them ran. *)
Theorem scenarios_run_in_order (imp : Importer) (environ : option string) (argv : Argv)
    (w : World) (p : Path) (selected : list Scenario)
    (r : exn + unit) (w' : World) (t : list Event) :
  python_sdk (parse_args environ argv) = Some p →
  path_exists p w = true →
  select_scenarios (opt_scenario argv) = inr selected →
  main imp environ argv w = (r, w', t) →
  let args := parse_args environ argv in
  let entry := str (resolve p w) in
  let w0 := push_sys_path entry w in
  let body := λ s, run_scenario imp s (resolve (output args) w0) (codex_path args) in
  ((r = inr tt ∧
    ∃ tl, ran body selected w0 w' tl ∧
          t = EvSysPath entry :: tl ++ [EvPrint completed_msg] ∧
          imports t = module <$> selected)
   ∨
   (∃ e pre s post w1 t1 t2,
      r = inl e ∧ selected = pre ++ s :: post ∧
      ran body pre w0 w1 t1 ∧ body s w1 = (inl e, w', t2) ∧
      t = EvSysPath entry :: t1 ++ t2 ∧
      imports t = module <$> (pre ++ [s]))) ∧
  (EvPrint completed_msg ∈ t ↔ r = inr tt) ∧
  (EvPrint completed_msg ∈ t ↔ ∃ w2 tl, ran body selected w0 w2 tl).
Proof.
  intros Hsdk Hex Hsel Hmain args entry w0 body.
  rewrite main_eq in Hmain. cbv zeta in Hmain.
  rewrite ensure_python_path_eq, Hsdk, Hex in Hmain.
  change (scenarios (parse_args environ argv)) with (opt_scenario argv) in Hmain.
  rewrite Hsel in Hmain. fold args entry w0 body in Hmain.
  destruct (for_each selected body w0) as [[[e|[]] w2] t2] eqn:Hloop;
    apply for_each_inv in Hloop as Hinv; inversion Hmain; subst r w' t; clear Hmain.
  - destruct Hinv as (pre & s & post & w1 & t1 & t3 & -> & Hpre & Hs & ->).
    apply ran_trace in Hpre as Htr. destruct Htr as [Hi1 Hp1].
    apply run_scenario_trace in Hs as Htr. destruct Htr as (Hi3 & Hp3 & _).
    assert (EvPrint completed_msg ∉ EvSysPath entry :: t1 ++ t3) as Hnot.
    { rewrite not_elem_of_cons, elem_of_app. split; [done | tauto]. }
    split; [|split].
    + right. exists e, pre, s, post, w1, t1, t3. repeat split; try done.
      simpl. change (imports (t1 ++ t3) = module <$> pre ++ [s]).
      by rewrite imports_app, Hi1, Hi3, fmap_app.
    + split; [done | discriminate].
    + split; [done|]. intros (w3 & tl & Hall%for_each_ran).
      rewrite Hall in Hloop. discriminate.
  - apply ran_trace in Hinv as Htr. destruct Htr as [Hi Hp].
    assert (EvPrint completed_msg ∈ EvSysPath entry :: t2 ++ [EvPrint completed_msg]) as Hin.
    { apply list_elem_of_further, elem_of_app. right. apply list_elem_of_here. }
    split; [|split].
    + left. split; [done|]. exists t2. repeat split; try done.
      simpl. change (imports (t2 ++ [EvPrint completed_msg]) = module <$> selected).
      by rewrite imports_app, Hi, app_nil_r.
    + done.
    + split; [eauto | done].
Qed.

(** Where the kernel's walk along a path arrives is what [resolve] gives. *)
Lemma walk_resolve (tree : gmap (list string) Node) cs cur k :
  walk tree cur cs = inr k → k = foldl step cur cs.
Proof.
  revert cur. induction cs as [|c cs IH]; intros cur; simpl; [by intros [= <-]|].
  destruct (node_at tree cur) as [[|]|]; try done. apply IH.
Qed.

Lemma path_exists_resolve p w :
  path_exists p w = true →
  walk (fs w) [] (abs_parts w p) = inr (parts (resolve p w)) ∧
  is_Some (node_at (fs w) (parts (resolve p w))).
Proof.
  unfold path_exists, os_stat.
  destruct (walk (fs w) [] (abs_parts w p)) as [e|k] eqn:Hw; [done|].
  apply walk_resolve in Hw as Hk. subst k. simpl.
  destruct (node_at (fs w) _) as [n|]; [|done]. intros _. split; [done | by exists n].
Qed.

Lemma str_absolute q :
  absolute q = true → str q = "/" +:+ join "/" (parts q).
Proof. intros Ha. unfold str. rewrite Ha. by destruct (parts q). Qed.

(** C8. With neither the flag nor the environment variable, and likewise
    with a path that does not exist, the script ends in [SystemExit] before
    it has done anything else: no import is attempted.  Otherwise the path,
    resolved and absolute, is put at the head of [sys.path], and that is the
    first thing the run does.  The resolved path is the SDK's location: its
    components are where the walk of the file system along the given path
    arrives, something is there, no [".."] is left in them, and the entry
    is those components after the root, joined by slashes.  Nothing but
    [sys.path] changes, and it is in the world with the new entry that the
    scenarios are run. *)
Theorem sdk_path_checked_first (imp : Importer) (environ : option string)
    (argv : Argv) (w : World) :
  let args := parse_args environ argv in
  (opt_python_sdk argv = None → environ = None →
   main imp environ argv w = (inl (SystemExit sdk_required_msg), w, [])) ∧
  (∀ p, python_sdk args = Some p → path_exists p w = false →
   main imp environ argv w = (inl (SystemExit (sdk_missing_msg p)), w, [])) ∧
  (∀ p, python_sdk args = Some p → path_exists p w = true →
   let entry := str (resolve p w) in
   let w0 := push_sys_path entry w in
   absolute (resolve p w) = true ∧
   ensure_python_path (python_sdk args) w = (inr tt, w0, [EvSysPath entry]) ∧
   sys_path w0 = entry :: sys_path w ∧
   (∃ r w' t, main imp environ argv w = (r, w', EvSysPath entry :: t)) ∧
   walk (fs w) [] (abs_parts w p) = inr (parts (resolve p w)) ∧
   is_Some (node_at (fs w) (parts (resolve p w))) ∧
   plain (parts (resolve p w)) ∧
   entry = "/" +:+ join "/" (parts (resolve p w)) ∧
   fs w0 = fs w ∧ cwd w0 = cwd w ∧
   ∀ selected, select_scenarios (scenarios args) = inr selected →
     match for_each selected
             (λ s, run_scenario imp s (resolve (output args) w) (codex_path args)) w0 with
     | (inl e, w2, t2) =>
         main imp environ argv w = (inl e, w2, EvSysPath entry :: t2)
     | (inr _, w2, t2) =>
         main imp environ argv w =
         (inr tt, w2, EvSysPath entry :: t2 ++ [EvPrint completed_msg])
     end).
Proof.
  cbv zeta. split; [|split].
  - intros Hflag Henv. rewrite main_eq. cbv zeta. rewrite ensure_python_path_eq.
    unfold parse_args. simpl. by rewrite Hflag, Henv.
  - intros p Hp Hex. rewrite main_eq. cbv zeta.
    by rewrite ensure_python_path_eq, Hp, Hex.
  - intros p Hp Hex. split; [reflexivity|].
    split; [by rewrite ensure_python_path_eq, Hp, Hex|].
    split; [reflexivity|].
    split.
    { rewrite main_eq. cbv zeta. rewrite ensure_python_path_eq, Hp, Hex.
      destruct (select_scenarios _) as [e|selected]; [by eauto|].
      destruct (for_each selected _ _) as [[[e|[]] w2] t2]; simpl; eauto. }
    destruct (path_exists_resolve p w Hex) as [Hwalk Hnode].
    split; [exact Hwalk|]. split; [exact Hnode|].
    split; [apply resolve_absolute_plain|].
    split; [by apply str_absolute|].
    split; [reflexivity|]. split; [reflexivity|].
    intros selected Hsel. rewrite main_eq. cbv zeta.
    rewrite ensure_python_path_eq, Hp, Hex, Hsel.
    change (resolve (output (parse_args environ argv))
              (push_sys_path (str (resolve p w)) w))
      with (resolve (output (parse_args environ argv)) w).
    by destruct (for_each selected _ _) as [[[e|[]] w2] t2].
Qed.

(** C9. With the SDK path missing or not there, and a request that names a
    scenario the registry does not have, the script ends in the [SystemExit]
    of the SDK path, having done nothing; its message is not the one the
    selection would have given. *)
Theorem sdk_error_precedes_selection (imp : Importer) (environ : option string)
    (argv : Argv) (w : World) :
  (∃ n, n ∈ opt_scenario argv ∧ n ∉ name <$> SCENARIOS) →
  (python_sdk (parse_args environ argv) = None ∨
   ∃ p, python_sdk (parse_args environ argv) = Some p ∧ path_exists p w = false) →
  ∃ msg,
    main imp environ argv w = (inl (SystemExit msg), w, []) ∧
    (msg = sdk_required_msg ∨ ∃ p, msg = sdk_missing_msg p) ∧
    ∃ unknown_msg,
      select_scenarios (opt_scenario argv) = inl (SystemExit unknown_msg) ∧
      msg ≠ unknown_msg.
Proof.
  intros (n & Hin & Hun) Hsdk.
  pose proof (select_scenarios_unknown _ n Hin Hun) as Hsel.
  destruct Hsdk as [Hnone|(p & Hp & Hex)].
  - exists sdk_required_msg. split; [|split; [by left|]].
    + rewrite main_eq. cbv zeta. by rewrite ensure_python_path_eq, Hnone.
    + eexists. split; [exact Hsel | discriminate].
  - exists (sdk_missing_msg p). split; [|split; [by eauto|]].
    + rewrite main_eq. cbv zeta. by rewrite ensure_python_path_eq, Hp, Hex.
    + eexists. split; [exact Hsel | discriminate].
Qed.

(** ** The theorems at work *)

Lemma clear_way_unobstructed (tree : gmap (list string) Node) cs :
  clear_way tree cs = true → unobstructed tree cs.
Proof.
  unfold clear_way. rewrite forallb_forall. intros Hall k [rest ->] Hfile.
  specialize (Hall (length k)). rewrite take_app_length in Hall.
  rewrite (bool_decide_eq_true_2 _ Hfile) in Hall.
  assert (true = false → False) as Hff by discriminate. apply Hff.
  symmetry. apply Hall. apply in_seq. rewrite length_app. lia.
Qed.

Lemma missing_entry_point_aborts_witness :
  ∃ msg,
    run_scenario demo_importer structured_output_success demo_out None ready_world =
    (inl (SystemExit msg), ready_world,
     [EvImport "harvest_scenarios.structured_output_success"]) ∧
    contains "structured_output_success" msg = true ∧
    contains "record" msg = true.
Proof.
  destruct (missing_entry_point_aborts demo_importer structured_output_success
              demo_out None ready_world ∅ ready_world)
    as (msg & Hrun & Hname & Hfun & _).
  - vm_compute. reflexivity.
  - reflexivity.
  - exists msg. auto.
Defined.

Lemma no_directory_before_resolution_witness :
  let '(r, w', t) := run_scenario demo_importer thread_basic demo_out None demo_world in
  (∃ e, r = inl e) ∧ fs w' = fs demo_world ∧
  t = [EvImport "harvest_scenarios.thread_basic"].
Proof.
  destruct (run_scenario demo_importer thread_basic demo_out None demo_world)
    as [[r w'] t] eqn:Hrun.
  destruct (no_directory_before_resolution _ _ _ _ _ _ _ _ Hrun)
    as (He & _ & Ht & _ & Hfs).
  - left. vm_compute. eauto.
  - split; [exact He|]. split; [|exact Ht]. apply Hfs. vm_compute. reflexivity.
Defined.

Lemma entry_point_called_once_witness :
  ∃ kwargs r w' t,
    run_scenario demo_importer thread_basic demo_out
      (Some (Path_of "/usr/bin/codex")) ready_world = (r, w', t) ∧
    calls t = [EvCall "harvest_scenarios.thread_basic" "record" kwargs] ∧
    kwargs !! "output_path" = Some (Path_of "/work/out/thread_basic.jsonl") ∧
    kwargs !! "codex_path" = Some (Path_of "/usr/bin/codex").
Proof.
  destruct (entry_point_called_once demo_importer thread_basic demo_out
              (Some (Path_of "/usr/bin/codex")) ready_world
              (<["record" := PyCallable demo_record]> ∅) ready_world
              (add_dir ["work"; "out"] ready_world)
              (add_dir ["work"; "out"] ready_world) demo_record)
    as (kwargs & r & w' & t & Hrun & _ & Hcalls & Hout & Hcodex & _).
  - vm_compute. reflexivity.
  - reflexivity.
  - vm_compute. reflexivity.
  - vm_compute. reflexivity.
  - exists kwargs, r, w', t. auto.
Defined.

Lemma output_path_and_directory_witness :
  str (joinpath demo_out "thread_basic.jsonl") = "/work/out/thread_basic.jsonl" ∧
  is_dir demo_out ready_world = false ∧
  ∃ w2, mkdir demo_out ready_world = (inr tt, w2) ∧
        fs w2 !! ["work"; "out"] = Some Dir.
Proof.
  destruct (output_path_and_directory demo_importer thread_basic demo_out None
              ready_world (<["record" := PyCallable demo_record]> ∅) ready_world)
    as ((_ & _ & Hstr) & _ & _ & Hmake).
  - reflexivity.
  - vm_compute. reflexivity.
  - reflexivity.
  - split; [by apply Hstr|]. split; [vm_compute; reflexivity|].
    destruct Hmake as (w2 & Hd & Hdirs).
    + reflexivity.
    + repeat constructor; discriminate.
    + apply clear_way_unobstructed. vm_compute. reflexivity.
    + exists w2. split; [exact Hd|]. by apply (Hdirs ["work"; "out"]).
Defined.

Lemma scenarios_run_in_order_witness :
  let run := main demo_importer (Some "/sdk") demo_argv demo_world in
  (EvPrint completed_msg ∈ run.2 ↔ run.1.1 = inr tt) ∧
  run.1.1 = inl (SystemExit (entry_point_msg structured_output_success)) ∧
  imports run.2 = [module thread_basic; module structured_output_success].
Proof.
  cbv zeta.
  destruct (scenarios_run_in_order demo_importer (Some "/sdk") demo_argv demo_world
              (Path_of "/sdk")
              [thread_basic; structured_output_success; sandbox_approval_denied]
              (main demo_importer (Some "/sdk") demo_argv demo_world).1.1
              (main demo_importer (Some "/sdk") demo_argv demo_world).1.2
              (main demo_importer (Some "/sdk") demo_argv demo_world).2)
    as (_ & Hiff & _).
  - reflexivity.
  - vm_compute. reflexivity.
  - vm_compute. reflexivity.
  - by destruct (main demo_importer (Some "/sdk") demo_argv demo_world) as [[? ?] ?].
  - split; [exact Hiff|]. split; vm_compute; reflexivity.
Defined.

Lemma sdk_path_checked_first_witness :
  ensure_python_path (Some (Path_of "../sdk")) demo_world =
    (inr tt, push_sys_path "/sdk" demo_world, [EvSysPath "/sdk"]) ∧
  walk (fs demo_world) [] ["work"; ".."; "sdk"] = inr ["sdk"] ∧
  (main demo_importer None (MkArgv (Some "../sdk") (Some "out") None ["thread_basic"])
     demo_world).1.1 = inr tt.
Proof.
  destruct (sdk_path_checked_first demo_importer None
              (MkArgv (Some "../sdk") (Some "out") None ["thread_basic"]) demo_world)
    as (_ & _ & Hfound).
  destruct (Hfound (Path_of "../sdk") eq_refl)
    as (_ & Hensure & _ & _ & Hwalk & _ & _ & Hentry & _ & _ & Hrun).
  - vm_compute. reflexivity.
  - split; [exact Hensure|]. split; [exact Hwalk|].
    specialize (Hrun [thread_basic] eq_refl). revert Hrun.
    destruct (for_each [thread_basic] _ _) as [[[e|[]] w2] t2] eqn:Hloop.
    + exfalso. revert Hloop. vm_compute. discriminate.
    + intros ->. reflexivity.
Defined.

Lemma sdk_error_precedes_selection_witness :
  ∃ msg unknown_msg,
    main demo_importer None (MkArgv None None None ["nope"]) demo_world =
      (inl (SystemExit msg), demo_world, []) ∧
    select_scenarios ["nope"] = inl (SystemExit unknown_msg) ∧
    msg ≠ unknown_msg.
Proof.
  destruct (sdk_error_precedes_selection demo_importer None
              (MkArgv None None None ["nope"]) demo_world)
    as (msg & Hmain & _ & unknown_msg & Hsel & Hne).
  - exists "nope". split; [apply list_elem_of_here|].
    apply (bool_decide_unpack _). vm_compute. exact I.
  - left. reflexivity.
  - exists msg, unknown_msg. auto.
Defined.

(** * Further properties of the script *)

(** ** Selection *)

Lemma select_scenarios_in_registry (requested : list string) ss :
  select_scenarios requested = inr ss → Forall (λ s, s ∈ SCENARIOS) ss.
Proof.
  destruct requested as [|n rest].
  - intros [= <-]. by apply Forall_forall.
  - unfold select_scenarios. destruct (filter _ (n :: rest)); [|done].
    generalize (n :: rest). clear. intros l. revert ss.
    induction l as [|x l IH]; intros ss; simpl; [intros [= <-]; constructor|].
    destruct (by_name SCENARIOS !! x) as [s|] eqn:Hs; [|done].
    destruct (lookup_all _ l) as [e|ss']; [done|]. intros [= <-].
    constructor; [by apply by_name_Some in Hs as [? _] | by apply IH].
Qed.

Lemma select_scenarios_names (requested : list string) ss :
  requested ≠ [] → select_scenarios requested = inr ss → name <$> ss = requested.
Proof.
  destruct requested as [|n rest]; [done|]. intros _.
  unfold select_scenarios. destruct (filter _ (n :: rest)); [|done].
  generalize (n :: rest). clear. intros l. revert ss.
  induction l as [|x l IH]; intros ss; simpl; [by intros [= <-]|].
  destruct (by_name SCENARIOS !! x) as [s|] eqn:Hs; [|done].
  destruct (lookup_all _ l) as [e|ss']; [done|]. intros [= <-].
  rewrite fmap_cons. f_equal; [by apply by_name_Some in Hs as [_ ?] | by apply IH].
Qed.

(** X1. Selection has two outcomes only.  When every requested name is
    registered it returns descriptors; when some requested name is not, it
    raises [SystemExit].  The lookup of a requested name never fails with
    [KeyError]. *)
Theorem select_scenarios_outcome (requested : list string) :
  (Forall (λ n, n ∈ name <$> SCENARIOS) requested ∧
   ∃ ss, select_scenarios requested = inr ss) ∨
  ((∃ n, n ∈ requested ∧ n ∉ name <$> SCENARIOS) ∧
   ∃ msg, select_scenarios requested = inl (SystemExit msg)).
Proof.
  destruct (decide (Forall (λ n, n ∈ name <$> SCENARIOS) requested)) as [Hall|Hnot].
  - left. split; [exact Hall|]. destruct requested as [|n rest]; [by exists SCENARIOS|].
    destruct (select_scenarios_known (n :: rest)) as [ss [Hsel _]]; [done | done |].
    by exists ss.
  - right. apply not_Forall_Exists in Hnot; [|apply _].
    apply Exists_exists in Hnot as (n & Hin & Hun). split; [by exists n|].
    eexists. by apply (select_scenarios_unknown requested n).
Qed.

(** X2. What selection returns are registry descriptors, and selecting their
    names again returns the same list. *)
Theorem select_scenarios_reselect (requested : list string) (ss : list Scenario) :
  select_scenarios requested = inr ss →
  Forall (λ s, s ∈ SCENARIOS) ss ∧
  select_scenarios (name <$> ss) = inr ss.
Proof.
  intros Hsel. split; [by eapply select_scenarios_in_registry|].
  destruct requested as [|n rest].
  - inversion Hsel; subst ss. vm_compute. reflexivity.
  - by rewrite (select_scenarios_names (n :: rest) ss).
Qed.

Lemma select_scenarios_reselect_witness :
  select_scenarios (name <$> [sandbox_approval_denied; thread_basic])
  = inr [sandbox_approval_denied; thread_basic].
Proof.
  destruct (select_scenarios_reselect ["sandbox_approval_denied"; "thread_basic"]
              [sandbox_approval_denied; thread_basic]) as [_ H].
  - vm_compute. reflexivity.
  - exact H.
Defined.

(** X3. The message of a refused request is the fixed heading followed by
    the names that are not registered, in the order of the request, a name
    as often as it was requested, separated by a comma and a space. *)
Theorem unknown_scenarios_message (requested : list string) :
  (∃ n, n ∈ requested ∧ n ∉ name <$> SCENARIOS) →
  select_scenarios requested =
  inl (SystemExit ("Unknown scenario(s): " +:+
                   join ", " (filter (λ n, n ∉ name <$> SCENARIOS) requested))).
Proof.
  intros (n & Hin & Hun).
  rewrite (select_scenarios_unknown requested n Hin Hun). do 4 f_equal.
  apply list_filter_iff. intros x. apply by_name_None.
Qed.

Lemma unknown_scenarios_message_witness :
  select_scenarios ["nope"; "thread_basic"; "nada"; "nope"]
  = inl (SystemExit "Unknown scenario(s): nope, nada, nope").
Proof.
  rewrite (unknown_scenarios_message ["nope"; "thread_basic"; "nada"; "nope"]).
  - vm_compute. reflexivity.
  - exists "nope". split; [apply list_elem_of_here|].
    apply (bool_decide_unpack _). vm_compute. exact I.
Defined.

(** ** One scenario: what it raises *)

Lemma mkdir_file p w :
  os_stat p w = inr File → mkdir p w = (inl (FileExistsError p), w).
Proof.
  intros Hst. unfold mkdir. rewrite mkdir_parents_unfold. cbv zeta.
  rewrite rev_involutive, Path_eta.
  unfold os_mkdir, is_dir. rewrite Hst. unfold os_stat in Hst.
  destruct (walk _ _ _) as [e|k]; [done|].
  by destruct (node_at (fs w) k) as [[|]|].
Qed.

Lemma mkdir_under_file p w :
  os_stat p w = inl ENOTDIR → mkdir p w = (inl (NotADirectoryError p), w).
Proof.
  intros Hst. unfold mkdir. rewrite mkdir_parents_unfold. cbv zeta.
  rewrite rev_involutive, Path_eta.
  unfold os_mkdir, is_dir. rewrite Hst. unfold os_stat in Hst.
  destruct (walk _ _ _) as [e|k].
  - by inversion Hst; subst e.
  - by destruct (node_at (fs w) k) as [[|]|].
Qed.

Lemma is_dir_extends p w w' :
  extends w w' → is_dir p w = true → is_dir p w' = true.
Proof.
  intros (Hcwd & _ & Hsub & _) (k & Hw & Hn)%is_dir_inv.
  apply (is_dir_intro _ _ k).
  - unfold abs_parts in *. rewrite Hcwd. by eapply walk_weaken.
  - by eapply node_at_weaken.
Qed.

(** X4. An exception of the import is the exception of the run, as it is:
    the run does nothing after the import, and the loop over the scenarios
    ends with that same exception without starting a later scenario. *)
Theorem import_error_propagates (imp : Importer) (s : Scenario) (d : Path)
    (c : option Path) (w : World) (e : exn) (w1 : World) :
  imp (module s) w = (inl e, w1) →
  run_scenario imp s d c w = (inl e, w1, [EvImport (module s)]) ∧
  ∀ pre post w0 t0,
    ran (λ x, run_scenario imp x d c) pre w0 w t0 →
    for_each (pre ++ s :: post) (λ x, run_scenario imp x d c) w0 =
    (inl e, w1, t0 ++ [EvImport (module s)]).
Proof.
  intros Himp.
  assert (run_scenario imp s d c w = (inl e, w1, [EvImport (module s)])) as Hrun.
  { by rewrite run_scenario_eq, Himp. }
  split; [exact Hrun|].
  intros pre post w0 t0 Hpre. by apply (for_each_stop _ pre post s w0 w).
Qed.

Lemma import_error_propagates_witness :
  run_scenario demo_importer thread_basic demo_out None demo_world =
  (inl (Raised "ModuleNotFoundError: harvest_scenarios.thread_basic"), demo_world,
   [EvImport "harvest_scenarios.thread_basic"]).
Proof.
  destruct (import_error_propagates demo_importer thread_basic demo_out None demo_world
              (Raised "ModuleNotFoundError: harvest_scenarios.thread_basic") demo_world)
    as [Hrun _].
  - vm_compute. reflexivity.
  - exact Hrun.
Defined.

(** X5. An exception of the entry point is the exception of the run, as it
    is, in the world the entry point left; the loop over the scenarios ends
    with it without starting a later scenario. *)
Theorem entry_point_error_propagates (imp : Importer) (s : Scenario) (d : Path)
    (c : option Path) (w : World) (m : PyModule) (w1 w2 w3 w4 : World)
    (h : Handler) (e : exn) :
  let out := joinpath d (name s +:+ ".jsonl") in
  let kwargs := <["output_path" := out]> (override_kwargs c) in
  imp (module s) w = (inr m, w1) →
  getattr m (function s) = PyCallable h →
  mkdir d w1 = (inr tt, w2) →
  mkdir (parent out) w2 = (inr tt, w3) →
  h kwargs w3 = (inl e, w4) →
  ∃ t,
    run_scenario imp s d c w = (inl e, w4, t) ∧
    calls t = [EvCall (module s) (function s) kwargs] ∧
    ∀ pre post w0 t0,
      ran (λ x, run_scenario imp x d c) pre w0 w t0 →
      for_each (pre ++ s :: post) (λ x, run_scenario imp x d c) w0 =
      (inl e, w4, t0 ++ t).
Proof.
  intros out kwargs Himp Hh Hd Hp Hcall.
  exists [EvImport (module s); EvMkdir d; EvMkdir (parent out);
          EvPrint (running_msg s out); EvCall (module s) (function s) kwargs].
  assert (run_scenario imp s d c w =
          (inl e, w4, [EvImport (module s); EvMkdir d; EvMkdir (parent out);
                       EvPrint (running_msg s out);
                       EvCall (module s) (function s) kwargs])) as Hrun.
  { rewrite run_scenario_eq, Himp. cbv zeta. fold out kwargs.
    rewrite Hh, Hd, Hp. simpl. rewrite Hcall. reflexivity. }
  split; [exact Hrun|]. split; [reflexivity|].
  intros pre post w0 t0 Hpre. by apply (for_each_stop _ pre post s w0 w).
Qed.

Lemma entry_point_error_propagates_witness :
  ∃ t,
    run_scenario
      (λ _ w, (inr (<["record" := PyCallable (λ _ w', (inl (Raised "boom"), w'))]>
                      (∅ : PyModule)), w))
      thread_basic (Path_of "/work") None demo_world
    = (inl (Raised "boom"), demo_world, t).
Proof.
  destruct (entry_point_error_propagates
              (λ _ w, (inr (<["record" := PyCallable (λ _ w', (inl (Raised "boom"), w'))]>
                              (∅ : PyModule)), w))
              thread_basic (Path_of "/work") None demo_world
              (<["record" := PyCallable (λ _ w', (inl (Raised "boom"), w'))]> ∅)
              demo_world demo_world demo_world demo_world
              (λ _ w', (inl (Raised "boom"), w')) (Raised "boom"))
    as (t & Hrun & _).
  - reflexivity.
  - reflexivity.
  - vm_compute. reflexivity.
  - vm_compute. reflexivity.
  - reflexivity.
  - by exists t.
Defined.

(** X6. A destination that is a regular file is refused with
    [FileExistsError], and a destination below a regular file with
    [NotADirectoryError]: [exist_ok] excuses directories only.  The run ends
    at the first [mkdir], with nothing printed and nothing called, in the
    world the import left. *)
Theorem destination_not_a_directory (imp : Importer) (s : Scenario) (d : Path)
    (c : option Path) (w : World) (m : PyModule) (w1 : World) :
  imp (module s) w = (inr m, w1) →
  is_None (getattr m (function s)) = false →
  (os_stat d w1 = inr File →
   run_scenario imp s d c w =
   (inl (FileExistsError d), w1, [EvImport (module s); EvMkdir d])) ∧
  (os_stat d w1 = inl ENOTDIR →
   run_scenario imp s d c w =
   (inl (NotADirectoryError d), w1, [EvImport (module s); EvMkdir d])).
Proof.
  intros Himp Hh. split; intros Hst; rewrite run_scenario_eq, Himp; cbv zeta; rewrite Hh.
  - by rewrite (mkdir_file d w1 Hst).
  - by rewrite (mkdir_under_file d w1 Hst).
Qed.

Lemma destination_not_a_directory_witness :
  let w := {| fs := <[ ["work"; "out"] := File ]> (fs ready_world);
              cwd := ["work"]; sys_path := sys_path ready_world |} in
  run_scenario full_importer thread_basic demo_out None w =
    (inl (FileExistsError demo_out), w,
     [EvImport "harvest_scenarios.thread_basic"; EvMkdir demo_out]) ∧
  run_scenario full_importer thread_basic (Path_of "/work/out/deep") None w =
    (inl (NotADirectoryError (Path_of "/work/out/deep")), w,
     [EvImport "harvest_scenarios.thread_basic"; EvMkdir (Path_of "/work/out/deep")]).
Proof.
  cbv zeta. split.
  - apply (destination_not_a_directory full_importer thread_basic demo_out None _
             (<["record" := PyCallable demo_record]> ∅) _);
      [vm_compute; reflexivity | reflexivity | vm_compute; reflexivity].
  - apply (destination_not_a_directory full_importer thread_basic
             (Path_of "/work/out/deep") None _
             (<["record" := PyCallable demo_record]> ∅) _);
      [vm_compute; reflexivity | reflexivity | vm_compute; reflexivity].
Defined.

(** X7. The script tests the entry point for [None], not for being callable.
    Something else under the name of the entry point passes the test: the
    directory is made and the progress line printed, and it is the call that
    raises, with [TypeError]. *)
Theorem not_callable_entry_point (imp : Importer) (s : Scenario) (d : Path)
    (c : option Path) (w : World) (m : PyModule) (w1 w2 w3 : World) (repr : string) :
  let out := joinpath d (name s +:+ ".jsonl") in
  imp (module s) w = (inr m, w1) →
  getattr m (function s) = PyOther repr →
  mkdir d w1 = (inr tt, w2) →
  mkdir (parent out) w2 = (inr tt, w3) →
  ∃ msg kwargs,
    run_scenario imp s d c w =
    (inl (TypeError msg), w3,
     [EvImport (module s); EvMkdir d; EvMkdir (parent out);
      EvPrint (running_msg s out); EvCall (module s) (function s) kwargs]) ∧
    is_dir d w3 = true.
Proof.
  intros out Himp Hh Hd Hp. do 2 eexists. split.
  - rewrite run_scenario_eq, Himp. cbv zeta. fold out. rewrite Hh, Hd, Hp.
    reflexivity.
  - apply mkdir_post in Hd as [Hdir _]. apply mkdir_post in Hp as [_ Hext].
    by eapply is_dir_extends.
Qed.

Lemma not_callable_entry_point_witness :
  ∃ msg t,
    run_scenario (λ _ w, (inr (<["record" := PyOther "42"]> (∅ : PyModule)), w))
      thread_basic demo_out None ready_world
    = (inl (TypeError msg), add_dir ["work"; "out"] ready_world, t) ∧
    is_dir demo_out (add_dir ["work"; "out"] ready_world) = true.
Proof.
  destruct (not_callable_entry_point
              (λ _ w, (inr (<["record" := PyOther "42"]> (∅ : PyModule)), w))
              thread_basic demo_out None ready_world
              (<["record" := PyOther "42"]> ∅) ready_world
              (add_dir ["work"; "out"] ready_world)
              (add_dir ["work"; "out"] ready_world) "42")
    as (msg & kwargs & Hrun & Hdir).
  - reflexivity.
  - reflexivity.
  - vm_compute. reflexivity.
  - vm_compute. reflexivity.
  - exists msg. eexists. split; [exact Hrun | exact Hdir].
Defined.

(** X8. The progress line goes with the call: a run that calls the entry
    point has printed the line, once, as the step right before the call, and
    has printed nothing else; a run that ends earlier has printed nothing.
    The line names the scenario and the output path. *)
Theorem progress_line_with_call (imp : Importer) (s : Scenario) (d : Path)
    (c : option Path) (w : World) (r : exn + unit) (w' : World) (t : list Event) :
  run_scenario imp s d c w = (r, w', t) →
  let out := joinpath d (name s +:+ ".jsonl") in
  ((calls t = [] ∧ ∀ line, EvPrint line ∉ t) ∨
   (∃ pre kwargs,
      t = pre ++ [EvPrint (running_msg s out); EvCall (module s) (function s) kwargs] ∧
      calls pre = [] ∧ ∀ line, EvPrint line ∉ pre)) ∧
  contains (name s) (running_msg s out) = true ∧
  contains (str out) (running_msg s out) = true.
Proof.
  intros Hrun out. split; [|split].
  - rewrite run_scenario_eq in Hrun. cbv zeta in Hrun. fold out in Hrun.
    destruct (imp (module s) w) as [[e|m] w1].
    { inversion Hrun; subst. left. split; [done|]. intros line. not_in_trace. }
    destruct (is_None _).
    { inversion Hrun; subst. left. split; [done|]. intros line. not_in_trace. }
    destruct (mkdir d w1) as [[e|[]] w2].
    { inversion Hrun; subst. left. split; [done|]. intros line. not_in_trace. }
    destruct (mkdir (parent out) w2) as [[e|[]] w3].
    { inversion Hrun; subst. left. split; [done|]. intros line. not_in_trace. }
    destruct (apply_obj _ _ w3) as [r4 w4]. inversion Hrun; subst. right.
    exists [EvImport (module s); EvMkdir d; EvMkdir (parent out)]. eexists.
    split; [reflexivity|]. split; [done|]. intros line. not_in_trace.
  - unfold running_msg. apply contains_append.
  - unfold running_msg. do 3 apply contains_append_skip. apply contains_self.
Qed.

Lemma progress_line_with_call_witness :
  ∃ pre kwargs,
    (run_scenario full_importer thread_basic demo_out None ready_world).2 =
    pre ++ [EvPrint "[harvest] running thread_basic -> /work/out/thread_basic.jsonl";
            EvCall "harvest_scenarios.thread_basic" "record" kwargs].
Proof.
  destruct (run_scenario full_importer thread_basic demo_out None ready_world)
    as [[r w'] t] eqn:Hrun.
  destruct (progress_line_with_call _ _ _ _ _ _ _ _ Hrun) as [[[Hnone _]|Hcall] _].
  - exfalso. revert Hnone. inversion Hrun; subst t. vm_compute. discriminate.
  - destruct Hcall as (pre & kwargs & Ht & _). exists pre, kwargs. exact Ht.
Defined.

(** ** The whole run: where it stays *)

Lemma registry_file_names (s : Scenario) :
  s ∈ SCENARIOS → has_char "/" (name s) = false.
Proof.
  intros Hin. repeat (apply elem_of_cons in Hin as [->|Hin]; [reflexivity|]).
  by apply elem_of_nil in Hin.
Qed.

Lemma run_scenario_within imp s d c w r w' t :
  s ∈ SCENARIOS →
  run_scenario imp s d c w = (r, w', t) →
  Forall (event_within d c) t.
Proof.
  intros Hin. pose proof (registry_file_names s Hin) as Hname.
  assert (event_within d c (EvImport (module s))) as Himport.
  { unfold event_within. by apply list_elem_of_fmap_2. }
  rewrite run_scenario_eq. cbv zeta.
  rewrite (parent_joinpath_file_name d _ Hname).
  destruct (imp (module s) w) as [[e|m] w1].
  { intros [= <- <- <-]. repeat (apply Forall_cons_2; [done|]). constructor. }
  destruct (is_None _).
  { intros [= <- <- <-]. repeat (apply Forall_cons_2; [done|]). constructor. }
  destruct (mkdir d w1) as [[e|[]] w2].
  { intros [= <- <- <-]. repeat (apply Forall_cons_2; [done|]). constructor. }
  destruct (mkdir d w2) as [[e|[]] w3].
  { intros [= <- <- <-]. repeat (apply Forall_cons_2; [done|]). constructor. }
  destruct (apply_obj _ _ w3) as [r4 w4]. intros [= <- <- <-].
  repeat (apply Forall_cons_2; [done|]).
  apply Forall_cons_2; [right; by exists s|].
  apply Forall_cons_2; [by exists s|]. constructor.
Qed.

Lemma ran_within imp d c l w w' t :
  Forall (λ s, s ∈ SCENARIOS) l →
  ran (λ s, run_scenario imp s d c) l w w' t →
  Forall (event_within d c) t.
Proof.
  intros Hl Hran. induction Hran as [|s l w w1 w2 t1 t2 Hs _ IH]; [constructor|].
  apply Forall_cons in Hl as [Hin Hl]. apply Forall_app. split; [|by apply IH].
  by eapply run_scenario_within.
Qed.

(** A run that did not raise went through its call. *)
Lemma run_scenario_ok_inv imp s d c w w' t :
  run_scenario imp s d c w = (inr tt, w', t) →
  call_targets t = [joinpath d (name s +:+ ".jsonl")] ∧ length (calls t) = 1.
Proof.
  rewrite run_scenario_eq. cbv zeta.
  destruct (imp (module s) w) as [[e|m] w1]; [done|].
  destruct (is_None _); [done|].
  destruct (mkdir d w1) as [[e|[]] w2]; [done|].
  destruct (mkdir (parent _) w2) as [[e|[]] w3]; [done|].
  destruct (apply_obj _ _ w3) as [r4 w4]. intros [= -> <- <-].
  split; [|reflexivity]. unfold call_targets. simpl. by rewrite lookup_insert_eq.
Qed.

Lemma calls_app t1 t2 : calls (t1 ++ t2) = calls t1 ++ calls t2.
Proof. apply List.filter_app. Qed.

Lemma call_targets_app t1 t2 :
  call_targets (t1 ++ t2) = call_targets t1 ++ call_targets t2.
Proof. apply omap_app. Qed.

Lemma ran_targets imp d c l w w' t :
  ran (λ s, run_scenario imp s d c) l w w' t →
  call_targets t = (λ s, joinpath d (name s +:+ ".jsonl")) <$> l ∧
  length (calls t) = length l.
Proof.
  induction 1 as [|s l w w1 w2 t1 t2 Hs _ [IHt IHc]]; [done|].
  apply run_scenario_ok_inv in Hs as [Ht Hc].
  rewrite call_targets_app, calls_app, length_app, Ht, Hc, IHt, IHc. done.
Qed.

Lemma grows_within_refl cs w : grows_within cs w w.
Proof. by repeat split. Qed.

Lemma grows_within_add_dir cs w :
  fs w !! cs = None → grows_within cs w (add_dir cs w).
Proof.
  intros Hfree. repeat split; simpl in *;
    destruct (decide (cs = k)) as [<-|Hne]; try done.
  - by rewrite lookup_insert_ne in H.
  - by rewrite lookup_insert_ne in H.
  - apply lookup_insert_eq.
  - by rewrite lookup_insert_ne in H.
Qed.

Lemma grows_within_prefix cs cs' w w' :
  cs `prefix_of` cs' → grows_within cs w w' → grows_within cs' w w'.
Proof.
  intros Hpre (Hc & Hs & Hk). repeat split; try done; destruct (Hk k H) as (? & ? & ?);
    [by etrans | done | done].
Qed.

Lemma grows_within_trans cs w1 w2 w3 :
  grows_within cs w1 w2 → grows_within cs w2 w3 → grows_within cs w1 w3.
Proof.
  intros (Hc1 & Hs1 & Hk1) (Hc2 & Hs2 & Hk2).
  split; [congruence|]. split; [congruence|]. intros k Hne.
  destruct (decide (fs w2 !! k = fs w1 !! k)) as [Heq|Hne1].
  - rewrite <- Heq in Hne. destruct (Hk2 k Hne) as (? & ? & ?).
    repeat split; [done | congruence | done].
  - destruct (Hk1 k Hne1) as (Hpre & Hnone & Hdir).
    repeat split; [done | done |].
    destruct (decide (fs w3 !! k = fs w2 !! k)) as [Heq|Hne2]; [congruence|].
    destruct (Hk2 k Hne2) as (_ & Hnone2 & _). congruence.
Qed.

(** [os.mkdir] of an absolute plain path changes nothing or adds that one
    directory. *)
Lemma os_mkdir_grows cs w r w' :
  plain cs → os_mkdir (MkPath true cs) w = (r, w') → grows_within cs w w'.
Proof.
  intros Hp. unfold os_mkdir, abs_parts. simpl.
  destruct (walk (fs w) [] cs) as [e|k] eqn:Hw.
  { intros [= _ <-]. apply grows_within_refl. }
  apply walk_plain_inr in Hw as [-> _]; [|done]. simpl.
  destruct (node_at (fs w) cs) as [n|] eqn:Hn.
  { intros [= _ <-]. apply grows_within_refl. }
  intros [= _ <-]. apply grows_within_add_dir. by destruct cs.
Qed.

Lemma mkdir_leaf_grows cs w r w' :
  plain cs → mkdir_leaf (MkPath true cs) w = (r, w') → grows_within cs w w'.
Proof.
  intros Hp. unfold mkdir_leaf.
  destruct (os_mkdir (MkPath true cs) w) as [[e|u] w1] eqn:Hm.
  - destruct e; [intros [= _ <-] | |];
      try (destruct (is_dir _ w); intros [= _ <-]); apply grows_within_refl.
  - intros [= _ <-]. by eapply os_mkdir_grows.
Qed.

(** [mkdir] with parents of an absolute plain path adds directories at the
    path and above it, and touches nothing else, whether it raises or not. *)
Lemma mkdir_parents_grows rparts w r w' :
  plain (rev rparts) →
  mkdir_parents true rparts w = (r, w') → grows_within (rev rparts) w w'.
Proof.
  revert w r w'. induction rparts as [|x rp IH]; intros w r w' Hp;
    rewrite mkdir_parents_unfold; cbv zeta;
    destruct (os_mkdir _ w) as [[e|u] w1] eqn:Hm.
  - destruct e; [intros [= _ <-] | |];
      try (destruct (is_dir _ w); intros [= _ <-]); apply grows_within_refl.
  - intros [= _ <-]. by eapply os_mkdir_grows.
  - destruct e.
    + simpl in Hp. apply Forall_app in Hp as Hp'. destruct Hp' as [Hp' _].
      destruct (mkdir_parents true rp w) as [[e'|[]] w2] eqn:Hrec.
      * intros [= _ <-]. eapply grows_within_prefix; [|by eapply IH].
        by apply prefix_app_r.
      * intros Hleaf. eapply grows_within_trans.
        -- eapply grows_within_prefix; [|by eapply IH]. by apply prefix_app_r.
        -- by eapply mkdir_leaf_grows.
    + destruct (is_dir _ w); intros [= _ <-]; apply grows_within_refl.
    + destruct (is_dir _ w); intros [= _ <-]; apply grows_within_refl.
  - intros [= _ <-]. by eapply os_mkdir_grows.
Qed.

Lemma mkdir_grows p w r w' :
  absolute p = true → plain (parts p) →
  mkdir p w = (r, w') → grows_within (parts p) w w'.
Proof.
  intros Ha Hp. unfold mkdir. rewrite Ha. intros Hm.
  apply mkdir_parents_grows in Hm; by rewrite rev_involutive in *.
Qed.

(** X9. After the entry for [sys.path], every step of a run stays with the
    registry and the output directory resolved at the start: it imports
    registered modules only, calls [mkdir] on that directory only, and calls
    entry points of registered scenarios only, each on the file
    [<name>.jsonl] directly in that directory and with the override as it
    was given.  The directory, and with it every path handed out, is
    absolute; and a [mkdir] on it, whether it raises or not, adds
    directories at that directory and above it and leaves everything else
    in the world as it was. *)
Theorem main_stays_within (imp : Importer) (environ : option string) (argv : Argv)
    (w : World) (r : exn + unit) (w' : World) (t : list Event) :
  main imp environ argv w = (r, w', t) →
  let args := parse_args environ argv in
  let d := resolve (output args) w in
  (t = [] ∨
   ∃ entry tl, t = EvSysPath entry :: tl ∧
               Forall (event_within d (codex_path args)) tl) ∧
  (∀ s, s ∈ SCENARIOS →
        joinpath d (name s +:+ ".jsonl") = MkPath true (parts d ++ [name s +:+ ".jsonl"])) ∧
  (∀ w1 r1 w2, mkdir d w1 = (r1, w2) → grows_within (parts d) w1 w2).
Proof.
  intros Hmain args d. split; [|split].
  - rewrite main_eq in Hmain. cbv zeta in Hmain. fold args in Hmain.
    rewrite ensure_python_path_eq in Hmain.
    destruct (python_sdk args) as [p|]; [|inversion Hmain; by left].
    destruct (path_exists p w); [|inversion Hmain; by left].
    change (resolve (output args) (push_sys_path (str (resolve p w)) w)) with d in Hmain.
    right. exists (str (resolve p w)).
    destruct (select_scenarios (scenarios args)) as [e|selected] eqn:Hsel.
    { inversion Hmain. exists []. split; [done | constructor]. }
    apply select_scenarios_in_registry in Hsel.
    destruct (for_each selected _ _) as [[[e|[]] w2] t2] eqn:Hloop;
      apply for_each_inv in Hloop; inversion Hmain; subst r w' t; clear Hmain.
    + destruct Hloop as (pre & s & post & w1 & t1 & t3 & -> & Hpre & Hs & ->).
      exists (t1 ++ t3). split; [done|].
      apply Forall_app in Hsel as [Hsel_pre Hsel_s].
      apply Forall_cons in Hsel_s as [Hin _].
      apply Forall_app. split; [by eapply ran_within | by eapply run_scenario_within].
    + exists (t2 ++ [EvPrint completed_msg]). split; [done|].
      apply Forall_app. split; [by eapply ran_within|].
      constructor; [by left | constructor].
  - intros s Hin. by rewrite (joinpath_file_name d _ (registry_file_names s Hin)).
  - intros w1 r1 w2 Hm. destruct (resolve_absolute_plain (output args) w) as [Ha Hp].
    by apply (mkdir_grows d w1 r1 w2).
Qed.

Lemma main_stays_within_witness :
  ∃ entry tl,
    (main full_importer (Some "/sdk") (MkArgv None (Some "out") None []) demo_world).2
    = EvSysPath entry :: tl ∧
    Forall (event_within (Path_of "/work/out") None) tl.
Proof.
  destruct (main full_importer (Some "/sdk") (MkArgv None (Some "out") None []) demo_world)
    as [[r w'] t] eqn:Hrun.
  destruct (main_stays_within _ _ _ _ _ _ _ Hrun) as ([Hnil|Hev] & _ & _).
  - exfalso. revert Hnil. inversion Hrun; subst t. vm_compute. discriminate.
  - exact Hev.
Defined.

(** X10. A run that completes has called one entry point for each selected
    scenario, in the selected order, each on [<name>.jsonl] in the output
    directory: a scenario selected twice is called twice, on the same file. *)
Theorem completed_run_targets (imp : Importer) (environ : option string) (argv : Argv)
    (w : World) (selected : list Scenario) (w' : World) (t : list Event) :
  select_scenarios (opt_scenario argv) = inr selected →
  main imp environ argv w = (inr tt, w', t) →
  let d := resolve (output (parse_args environ argv)) w in
  call_targets t = (λ s, joinpath d (name s +:+ ".jsonl")) <$> selected ∧
  length (calls t) = length selected.
Proof.
  intros Hsel Hmain d. rewrite main_eq in Hmain. cbv zeta in Hmain.
  rewrite ensure_python_path_eq in Hmain.
  destruct (python_sdk (parse_args environ argv)) as [p|]; [|done].
  destruct (path_exists p w); [|done].
  change (scenarios (parse_args environ argv)) with (opt_scenario argv) in Hmain.
  rewrite Hsel in Hmain.
  change (resolve (output (parse_args environ argv)) (push_sys_path (str (resolve p w)) w))
    with d in Hmain.
  destruct (for_each selected _ _) as [[[e|[]] w2] t2] eqn:Hloop; [done|].
  apply for_each_inv in Hloop. apply ran_targets in Hloop as [Ht Hc].
  inversion Hmain; subst w' t.
  change (EvSysPath (str (resolve p w)) :: t2 ++ [EvPrint completed_msg])
    with ([EvSysPath (str (resolve p w))] ++ t2 ++ [EvPrint completed_msg]).
  rewrite !call_targets_app, !calls_app, !length_app, Ht, Hc. simpl.
  split; [by rewrite app_nil_r | lia].
Qed.

Lemma completed_run_targets_witness :
  call_targets
    (main full_importer (Some "/sdk")
       (MkArgv None (Some "/out") None ["thread_basic"; "thread_basic"]) demo_world).2
  = [Path_of "/out/thread_basic.jsonl"; Path_of "/out/thread_basic.jsonl"].
Proof.
  destruct (main full_importer (Some "/sdk")
              (MkArgv None (Some "/out") None ["thread_basic"; "thread_basic"]) demo_world)
    as [[r w'] t] eqn:Hrun.
  assert (r = inr tt) as -> by (inversion Hrun; vm_compute; reflexivity).
  destruct (completed_run_targets full_importer (Some "/sdk")
              (MkArgv None (Some "/out") None ["thread_basic"; "thread_basic"])
              demo_world [thread_basic; thread_basic] w' t) as [Ht _].
  - vm_compute. reflexivity.
  - exact Hrun.
  - cbn [snd]. rewrite Ht. vm_compute. reflexivity.
Defined.

(** X11. A request with an unregistered name is refused only after the SDK
    path went onto [sys.path]: the run ends right there, with that entry
    made and nothing else done: no directory made, nothing printed. *)
Theorem refused_request_state (imp : Importer) (environ : option string)
    (argv : Argv) (w : World) (p : Path) :
  python_sdk (parse_args environ argv) = Some p →
  path_exists p w = true →
  (∃ n, n ∈ opt_scenario argv ∧ n ∉ name <$> SCENARIOS) →
  ∃ msg,
    main imp environ argv w =
    (inl (SystemExit msg), push_sys_path (str (resolve p w)) w,
     [EvSysPath (str (resolve p w))]) ∧
    fs (push_sys_path (str (resolve p w)) w) = fs w.
Proof.
  intros Hsdk Hex (n & Hin & Hun). eexists. split; [|reflexivity].
  rewrite main_eq. cbv zeta. rewrite ensure_python_path_eq, Hsdk, Hex.
  change (scenarios (parse_args environ argv)) with (opt_scenario argv).
  by rewrite (select_scenarios_unknown _ n Hin Hun).
Qed.

Lemma refused_request_state_witness :
  ∃ msg,
    main full_importer (Some "/sdk") (MkArgv None None None ["nope"]) demo_world =
    (inl (SystemExit msg), ready_world, [EvSysPath "/sdk"]).
Proof.
  destruct (refused_request_state full_importer (Some "/sdk")
              (MkArgv None None None ["nope"]) demo_world (Path_of "/sdk"))
    as (msg & Hmain & _).
  - reflexivity.
  - vm_compute. reflexivity.
  - exists "nope". split; [apply list_elem_of_here|].
    apply (bool_decide_unpack _). vm_compute. exact I.
  - exists msg. exact Hmain.
Defined.

(** ** Configuration *)

Lemma foldl_step_plain cs acc : plain cs → foldl step acc cs = acc ++ cs.
Proof.
  intros Hp. revert acc. induction Hp as [|c cs Hc _ IH]; intros acc; simpl.
  - by rewrite app_nil_r.
  - rewrite (step_plain _ _ Hc), IH, <- app_assoc. done.
Qed.

(** X12. An empty string for the SDK path is a path given, not a path
    missing: from the flag as from the environment variable it becomes the
    path of the working directory, and with the working directory in place
    the check passes and [sys.path] gets the working directory. *)
Theorem empty_sdk_path_is_cwd (environ : option string) (argv : Argv) (w : World) :
  opt_python_sdk argv = Some "" ∨ (opt_python_sdk argv = None ∧ environ = Some "") →
  python_sdk (parse_args environ argv) = Some (MkPath false []) ∧
  (is_dir (MkPath false []) w = true → plain (cwd w) →
   ensure_python_path (python_sdk (parse_args environ argv)) w =
   (inr tt, push_sys_path (str (MkPath true (cwd w))) w,
    [EvSysPath (str (MkPath true (cwd w)))])).
Proof.
  intros Hempty.
  assert (python_sdk (parse_args environ argv) = Some (MkPath false [])) as Hsdk.
  { unfold parse_args. simpl. by destruct Hempty as [->|[-> ->]]. }
  split; [exact Hsdk|]. intros Hdir Hplain.
  rewrite ensure_python_path_eq, Hsdk, (is_dir_exists _ _ Hdir).
  unfold resolve, abs_parts. simpl.
  by rewrite app_nil_r, (foldl_step_plain _ [] Hplain).
Qed.

Lemma empty_sdk_path_is_cwd_witness :
  ensure_python_path (python_sdk (parse_args (Some "") (MkArgv None None None [])))
    demo_world
  = (inr tt, push_sys_path "/work" demo_world, [EvSysPath "/work"]).
Proof.
  destruct (empty_sdk_path_is_cwd (Some "") (MkArgv None None None []) demo_world)
    as [_ H].
  - right. split; reflexivity.
  - rewrite H; [reflexivity | vm_compute; reflexivity | repeat constructor; discriminate].
Defined.

(** X14. Without [--output] the fixtures go to [integration/fixtures/python]
    below the working directory. *)
Theorem default_output_directory (environ : option string) (argv : Argv) (w : World) :
  opt_output argv = None →
  plain (cwd w) →
  resolve (output (parse_args environ argv)) w =
  MkPath true (cwd w ++ ["integration"; "fixtures"; "python"]).
Proof.
  intros Hout Hplain. unfold parse_args. simpl. rewrite Hout.
  change (Path_of "integration/fixtures/python")
    with (MkPath false ["integration"; "fixtures"; "python"]).
  unfold resolve, abs_parts. cbn [absolute parts].
  rewrite foldl_step_plain; [done|]. apply Forall_app. split; [done|].
  repeat constructor; discriminate.
Qed.

Lemma default_output_directory_witness :
  str (resolve (output (parse_args None (MkArgv None None None []))) demo_world)
  = "/work/integration/fixtures/python".
Proof.
  rewrite (default_output_directory None (MkArgv None None None []) demo_world).
  - reflexivity.
  - reflexivity.
  - repeat constructor; discriminate.
Defined.
